(** * Recovering molar mass distributions: the notebook's recovery functions

    A shallow embedding of [Notebooks/pdi-sampling-demo.ipynb]: the helper
    functions [recovered_gauss_sigma], [gauss], [weib], [f1], [f2],
    [weibull_k_expression], [weibull_lambda_expression] and the entry point
    [recover_mass_dist], followed by the properties of the recovery engine.

    Conventions of the embedding.
    - Python floats are idealised as real numbers ([R]); rounding, overflow
      and signed zeros are outside the model.
    - An argument that may be [None] is an [option R].
    - Exceptions are explicit: a call returns an [outcome], either [Ret v]
      or [Raise e].  The moments and the argument of the Gaussian closure
      are taken to be Python scalars: division by zero raises
      [ZeroDivisionError], an arithmetic operation on [None] raises
      [TypeError].  (With numpy scalars a zero divisor gives [inf] or [nan]
      and a warning instead; the properties that assume non-zero divisors
      hold for both.)
    - A numpy computation whose result is not a real number ([nan], [inf])
      yields [None] in an [option R].
    - The two closures the function returns are defunctionalised: a
      [closure] is the code of the lambda (its constructor) together with
      the values it captured; [call] runs it on an argument.
    - The names the function resolves in the module namespace at call time
      and that the repository does not define ([scipy.special.gamma],
      [scipy.optimize.root]) or that earlier cells assign ([weib_M_n],
      [weib_M_w]) are collected in an environment [env], over which every
      property is universally quantified. *)

From Stdlib Require Import Reals Lra String Ascii List Bool Arith ZArith.
From Stdlib Require Import ClassicalEpsilon.
Import ListNotations.

Open Scope R_scope.

(** ** Exceptions and outcomes *)

(** The exceptions the modelled code can raise.  [ValueError] is the one
    raised for an unrecognised distribution name; an [AssertionError]
    carries the message of its [assert]. *)
Inductive exn : Type :=
| ValueError
| AssertionError (msg : string)
| ZeroDivisionError
| TypeError.

Inductive outcome (A : Type) : Type :=
| Ret (a : A)
| Raise (e : exn).

Arguments Ret {A} a.
Arguments Raise {A} e.

Definition bind {A B : Type} (m : outcome A) (k : A -> outcome B) : outcome B :=
  match m with
  | Ret a => k a
  | Raise e => Raise e
  end.

Notation "x <- m ;; k" := (bind m (fun x => k))
  (at level 61, m at next level, right associativity).

(** ** Strings: [str.lower] on ASCII text *)

Definition lower_char (c : ascii) : ascii :=
  let n := nat_of_ascii c in
  if ((65 <=? n) && (n <=? 90))%nat then ascii_of_nat (n + 32) else c.

Fixpoint lower (s : string) : string :=
  match s with
  | EmptyString => EmptyString
  | String c s' => String (lower_char c) (lower s')
  end.

(** ** Scalar arithmetic on possibly-[None] operands *)

Definition py_float (a : option R) : outcome R :=
  match a with
  | Some x => Ret x
  | None => Raise TypeError
  end.

Definition py_truediv (a b : option R) : outcome R :=
  match a, b with
  | Some x, Some y =>
      if Req_dec_T y 0 then Raise ZeroDivisionError else Ret (x / y)
  | _, _ => Raise TypeError
  end.

Definition py_mul (a b : option R) : outcome R :=
  match a, b with
  | Some x, Some y => Ret (x * y)
  | _, _ => Raise TypeError
  end.

Definition py_sub (a b : option R) : outcome R :=
  match a, b with
  | Some x, Some y => Ret (x - y)
  | _, _ => Raise TypeError
  end.

(** ** numpy power on reals

    [x ** y] for floats: the real power for a positive base; [0 ** y] is
    [0], [1] or [inf] by the sign of [y]; a negative base has a real power
    only for an integral exponent and gives [nan] otherwise. *)
Definition np_power (x y : R) : option R :=
  if Rlt_dec 0 x then Some (Rpower x y)
  else if Req_dec_T x 0 then
    (if Rlt_dec 0 y then Some 0
     else if Req_dec_T y 0 then Some 1
     else None)
  else
    (if Req_dec_T y (IZR (Int_part y)) then Some (powerRZ x (Int_part y))
     else None).

(** ** The closed-form Gaussian helpers (cell 4) *)

Definition recovered_gauss_sigma (Mn Mw : R) : R := Mn * (Mw - Mn).

Definition gauss (x mu sigma N : R) : R :=
  N * exp (- (x - mu) ^ 2 / (2 * sigma)).

(** ** The Weibull density (cell 8), evaluated with numpy arithmetic *)

Definition weib (x shape scale coeff : R) : option R :=
  if Req_dec_T scale 0 then None
  else
    match np_power (x / scale) (shape - 1), np_power (x / scale) shape with
    | Some p, Some q => Some (coeff * (shape / scale * p * exp (- q)))
    | _, _ => None
    end.

(** ** The module namespace seen by [recover_mass_dist] *)

Record env : Type := {
  gamma : R -> R;                        (* scipy.special.gamma *)
  optimize_root : (R -> R) -> R -> R;    (* scipy.optimize.root(f, x0=..)['x'] *)
  weib_M_n : R;                          (* assigned in cells 8, 12 and 15 *)
  weib_M_w : R
}.

(** ** The values [recover_mass_dist] returns *)

(** The two lambdas, each with the variables it captures. *)
Inductive closure : Type :=
| GaussianPdf (Mn sigma : R)
| WeibullPdf (recovered_k recovered_lambda : R).

(** [lambda x: np.exp(-(x-Mn)**2 / (2. * sigma))] and
    [lambda x: recovered_k / recovered_lambda
                 * (x / recovered_lambda) ** (recovered_k - 1)
                 * np.exp(- (x / recovered_lambda) ** recovered_k)].
    The second works on the array the solver returned, hence with numpy
    arithmetic throughout. *)
Definition call (f : closure) (x : R) : outcome (option R) :=
  match f with
  | GaussianPdf Mn sigma =>
      if Req_dec_T (2 * sigma) 0 then Raise ZeroDivisionError
      else Ret (Some (exp (- (x - Mn) ^ 2 / (2 * sigma))))
  | WeibullPdf recovered_k recovered_lambda =>
      if Req_dec_T recovered_lambda 0 then Ret None
      else
        match np_power (x / recovered_lambda) (recovered_k - 1),
              np_power (x / recovered_lambda) recovered_k with
        | Some p, Some q =>
            Ret (Some (recovered_k / recovered_lambda * p * exp (- q)))
        | _, _ => Ret None
        end
  end.

(** ** Completion of the moment triple *)

(** The three conditional assignments of the [else] branch. *)
Inductive assignment : Type := Assign_Mn | Assign_Mw | Assign_pdi.

(** The local variables [Mn], [Mw], [pdi], with the log of the assignments
    executed so far (ghost state, in execution order). *)
Record locals : Type := {
  st_Mn : option R;
  st_Mw : option R;
  st_pdi : option R;
  st_fired : list assignment
}.

(** The state of the locals on entry. *)
Definition entry (Mn Mw pdi : option R) : locals :=
  {| st_Mn := Mn; st_Mw := Mw; st_pdi := pdi; st_fired := [] |}.

Definition is_not_None {A : Type} (a : option A) : bool :=
  match a with
  | Some _ => true
  | None => false
  end.

(** [sum([x is not None for x in [pdi, Mn, Mw]])] *)
Definition pdi_arg_sum (Mn Mw pdi : option R) : nat :=
  fold_right (fun (b : bool) (n : nat) => ((if b then 1 else 0) + n)%nat) 0%nat
    [is_not_None pdi; is_not_None Mn; is_not_None Mw].

(** [if Mn is None: Mn = Mw / pdi] *)
Definition assign_Mn (s : locals) : outcome locals :=
  match st_Mn s with
  | None =>
      v <- py_truediv (st_Mw s) (st_pdi s) ;;
      Ret {| st_Mn := Some v; st_Mw := st_Mw s; st_pdi := st_pdi s;
             st_fired := st_fired s ++ [Assign_Mn] |}
  | Some _ => Ret s
  end.

(** [if Mw is None: Mw = pdi * Mn] *)
Definition assign_Mw (s : locals) : outcome locals :=
  match st_Mw s with
  | None =>
      v <- py_mul (st_pdi s) (st_Mn s) ;;
      Ret {| st_Mn := st_Mn s; st_Mw := Some v; st_pdi := st_pdi s;
             st_fired := st_fired s ++ [Assign_Mw] |}
  | Some _ => Ret s
  end.

(** [if pdi is None: pdi = Mw / Mn] *)
Definition assign_pdi (s : locals) : outcome locals :=
  match st_pdi s with
  | None =>
      v <- py_truediv (st_Mw s) (st_Mn s) ;;
      Ret {| st_Mn := st_Mn s; st_Mw := st_Mw s; st_pdi := Some v;
             st_fired := st_fired s ++ [Assign_pdi] |}
  | Some _ => Ret s
  end.

Definition complete_moments (s : locals) : outcome locals :=
  s1 <- assign_Mn s ;;
  s2 <- assign_Mw s1 ;;
  assign_pdi s2.

Definition msg_two_of_three : string :=
  "At least two of [pdi, M_n, M_w] must be given.".

Definition msg_pdi_mismatch : string :=
  "PDI value does not match M_n and M_w values.".

(** [assert pdi - (Mw/Mn) < 1e-5, '...'] *)
Definition assert_pdi_matches (s : locals) : outcome locals :=
  q <- py_truediv (st_Mw s) (st_Mn s) ;;
  d <- py_sub (st_pdi s) (Some q) ;;
  if Rlt_dec d (1 / 100000) then Ret s
  else Raise (AssertionError msg_pdi_mismatch).

(** ** The Weibull moment relations and the recovery function (cells 10, 14) *)

Section Recovery.

Variable E : env.

Definition f1 (x Mn Mw : R) : R :=
  (2 * x * gamma E (2 / x)) / gamma E (1 / x) ^ 2 - (Mw / Mn).

Definition f2 (Mn k : R) : R :=
  Mn * k / gamma E (1 / k).

Definition weibull_k_expression (x Mn Mw : R) : R :=
  (2 * x * gamma E (2 / x)) / gamma E (1 / x) ^ 2 - (Mw / Mn).

Definition weibull_lambda_expression (Mn k : R) : R :=
  Mn * k / gamma E (1 / k).

(** The second half of the function: the [if]/[elif] on the family.  It
    yields [Some] closure, or [None] when control falls off the end. *)
Definition dispatch (distribution : string) (s : locals)
  : outcome (option closure) :=
  if (lower distribution =? "gaussian")%string then
    let mean := st_Mn s in
    d <- py_sub (st_Mw s) (st_Mn s) ;;
    sigma <- py_mul (st_Mn s) (Some d) ;;
    m <- py_float (st_Mn s) ;;
    Ret (Some (GaussianPdf m sigma))
  else if (lower distribution =? "weibull")%string then
    let recovered_k :=
      optimize_root E (fun x => f1 x (weib_M_n E) (weib_M_w E)) 1 in
    m <- py_float (st_Mn s) ;;
    let recovered_lambda := f2 m recovered_k in
    Ret (Some (WeibullPdf recovered_k recovered_lambda))
  else Ret None.

Definition recover_mass_dist (Mn Mw pdi : option R) (distribution : string)
  : outcome (option closure) :=
  if negb (lower distribution =? "gaussian")%string
     && negb (lower distribution =? "weibull")%string
  then Raise ValueError
  else
    let n := pdi_arg_sum Mn Mw pdi in
    if negb (2 <=? n)%nat then Raise (AssertionError msg_two_of_three)
    else
      s <- (if (n =? 3)%nat then assert_pdi_matches (entry Mn Mw pdi)
            else complete_moments (entry Mn Mw pdi)) ;;
      dispatch distribution s.

(** A call that leaves [distribution] out takes the default of the
    signature, [distribution='Gaussian']. *)
Definition recover_mass_dist_call (Mn Mw pdi : option R)
    (distribution : option string) : outcome (option closure) :=
  recover_mass_dist Mn Mw pdi
    (match distribution with
     | Some d => d
     | None => "Gaussian"%string
     end).

End Recovery.

(** ** One concrete notebook state

    Used to instantiate the properties below: the Gamma function as the
    limit of Euler's product, a solver that returns a zero of its argument
    whenever there is one, and moments left by an earlier cell. *)

Definition euler_product (x : R) (n : nat) : R :=
  INR (fact n) * Rpower (INR n) x
  / fold_right Rmult 1 (map (fun i => x + INR i) (seq 0 (S n))).

(** The denominator of Euler's product: [x (x+1) ... (x+n-1)]. *)
Definition rising (x : R) (n : nat) : R :=
  fold_right Rmult 1 (map (fun i => x + INR i) (seq 0 n)).

Definition Gamma_limit (x : R) : R :=
  epsilon (inhabits 0) (fun l => Un_cv (euler_product x) l).

Definition exact_root (f : R -> R) (x0 : R) : R :=
  epsilon (inhabits x0) (fun k => f k = 0).

Definition example_env : env :=
  {| gamma := Gamma_limit;
     optimize_root := exact_root;
     weib_M_n := 40;
     weib_M_w := 80 |}.

(** The shape the Weibull path solves for: the root-finder, started at [1],
    on [f1] closed over the module-level [weib_M_n] and [weib_M_w]. *)
Definition solved_shape (E : env) : R :=
  optimize_root E (fun x => f1 E x (weib_M_n E) (weib_M_w E)) 1.

(** The family test of the first [if], as a boolean. *)
Definition recognised (distribution : string) : bool :=
  (lower distribution =? "gaussian")%string
  || (lower distribution =? "weibull")%string.

(** ** Digitised samples: the noise filter and the moment sums (cells 4, 18, 19)

    A data array has one row per sample, [(x, y)]: column 0 is the molar
    mass, column 1 the measured amplitude. *)

Definition samples : Type := list (R * R).

(** [np.where(column < low_cut)]: the indices, in increasing order, of the
    entries below the cut; [i] is the index of the head of [column]. *)
Fixpoint np_where_lt (column : list R) (low_cut : R) (i : nat) : list nat :=
  match column with
  | [] => []
  | y :: rest =>
      if Rlt_dec y low_cut then i :: np_where_lt rest low_cut (S i)
      else np_where_lt rest low_cut (S i)
  end.

(** [data_arr[i, 1] = 0] *)
Fixpoint set_y_zero (data_arr : samples) (i : nat) : samples :=
  match data_arr, i with
  | [], _ => []
  | (x, _) :: rest, O => (x, 0) :: rest
  | row :: rest, S j => row :: set_y_zero rest j
  end.

(** [filter_y(data_arr, high_cut, low_cut)]: the array is updated in place
    at the selected indices and returned; the result is its new content.
    [high_cut] is a parameter of the source that its body does not use. *)
Definition filter_y (data_arr : samples) (high_cut low_cut : R) : samples :=
  let indices := np_where_lt (map snd data_arr) low_cut 0 in
  fold_left set_y_zero indices data_arr.

(** The effect of the filter on one row, used to state its properties. *)
Definition cut_row (low_cut : R) (row : R * R) : R * R :=
  if Rlt_dec (snd row) low_cut then (fst row, 0) else row.

(** The defaults of the signature, [high_cut=1e6] and [low_cut=5e-3]. *)
Definition filter_y_call (data_arr : samples) (high_cut low_cut : option R)
  : samples :=
  filter_y data_arr
    (match high_cut with Some h => h | None => 1000000 end)
    (match low_cut with Some l => l | None => 5 / 1000 end).

Definition np_sum (a : list R) : R := fold_right Rplus 0 a.

(** Division of numpy scalars: a zero divisor gives [inf] or [nan]. *)
Definition np_divide (a b : R) : option R :=
  if Req_dec_T b 0 then None else Some (a / b).

(** [np.sum(x*y) / np.sum(y)] *)
Definition M_n (data : samples) : option R :=
  np_divide (np_sum (map (fun row => fst row * snd row) data))
            (np_sum (map snd data)).

(** [np.sum(x*x*y) / np.sum(x*y)] *)
Definition M_w (data : samples) : option R :=
  np_divide (np_sum (map (fun row => fst row * fst row * snd row) data))
            (np_sum (map (fun row => fst row * snd row) data)).

(** The sums the moments are built from, and the weighted variance of
    the samples about [m], used to state their properties. *)
Definition sum_y (data : samples) : R := np_sum (map snd data).

Definition sum_xy (data : samples) : R :=
  np_sum (map (fun row => fst row * snd row) data).

Definition sum_xxy (data : samples) : R :=
  np_sum (map (fun row => fst row * fst row * snd row) data).

Definition weighted_variance (data : samples) (m : R) : R :=
  np_sum (map (fun row => (fst row - m) ^ 2 * snd row) data) / sum_y data.

(** The same samples with every amplitude multiplied by [c]. *)
Definition scale_y (c : R) (data : samples) : samples :=
  map (fun row => (fst row, c * snd row)) data.

(** * Properties *)

(** ** Lower-casing *)

Lemma lower_char_idempotent (c : ascii) :
  lower_char (lower_char c) = lower_char c.
Proof.
  destruct c as [b0 b1 b2 b3 b4 b5 b6 b7].
  destruct b0, b1, b2, b3, b4, b5, b6, b7; vm_compute; reflexivity.
Qed.

Lemma lower_idempotent (s : string) : lower (lower s) = lower s.
Proof.
  induction s as [|c s IH]; simpl.
  - reflexivity.
  - rewrite lower_char_idempotent, IH. reflexivity.
Qed.

Example lower_Gaussian : lower "Gaussian" = "gaussian"%string.
Proof. reflexivity. Qed.

Example lower_WEIBULL : lower "WEIBULL" = "weibull"%string.
Proof. reflexivity. Qed.

Example lower_gaussian : lower "gaussian" = "gaussian"%string.
Proof. reflexivity. Qed.

Lemma recognised_spec (d : string) :
  recognised d = true <->
  lower d = "gaussian"%string \/ lower d = "weibull"%string.
Proof.
  unfold recognised. rewrite orb_true_iff, !String.eqb_eq. tauto.
Qed.

(** ** The two dispatch paths, with the family test resolved *)

Section Paths.

Variable E : env.

Lemma recover_unrecognised (Mn Mw pdi : option R) (d : string) :
  recognised d = false ->
  recover_mass_dist E Mn Mw pdi d = Raise ValueError.
Proof.
  unfold recognised, recover_mass_dist. intros H.
  apply orb_false_iff in H. destruct H as [-> ->]. reflexivity.
Qed.

Lemma recover_gaussian (Mn Mw pdi : option R) (d : string) :
  lower d = "gaussian"%string ->
  recover_mass_dist E Mn Mw pdi d =
  if negb (2 <=? pdi_arg_sum Mn Mw pdi)%nat
  then Raise (AssertionError msg_two_of_three)
  else
    s <- (if (pdi_arg_sum Mn Mw pdi =? 3)%nat
          then assert_pdi_matches (entry Mn Mw pdi)
          else complete_moments (entry Mn Mw pdi)) ;;
    d <- py_sub (st_Mw s) (st_Mn s) ;;
    sigma <- py_mul (st_Mn s) (Some d) ;;
    m <- py_float (st_Mn s) ;;
    Ret (Some (GaussianPdf m sigma)).
Proof.
  intros H. unfold recover_mass_dist, dispatch. rewrite H. reflexivity.
Qed.

Lemma recover_weibull (Mn Mw pdi : option R) (d : string) :
  lower d = "weibull"%string ->
  recover_mass_dist E Mn Mw pdi d =
  if negb (2 <=? pdi_arg_sum Mn Mw pdi)%nat
  then Raise (AssertionError msg_two_of_three)
  else
    s <- (if (pdi_arg_sum Mn Mw pdi =? 3)%nat
          then assert_pdi_matches (entry Mn Mw pdi)
          else complete_moments (entry Mn Mw pdi)) ;;
    m <- py_float (st_Mn s) ;;
    let k := optimize_root E (fun x => f1 E x (weib_M_n E) (weib_M_w E)) 1 in
    Ret (Some (WeibullPdf k (f2 E m k))).
Proof.
  intros H. unfold recover_mass_dist, dispatch. rewrite H. reflexivity.
Qed.

End Paths.

(** ** Scalar arithmetic on supplied operands *)

Ltac real_cases :=
  repeat match goal with
    | |- context [Req_dec_T ?a ?b] => destruct (Req_dec_T a b); try lra
    | |- context [Rlt_dec ?a ?b] => destruct (Rlt_dec a b); try lra
    end.

Lemma py_truediv_Some (x y : R) :
  y <> 0 -> py_truediv (Some x) (Some y) = Ret (x / y).
Proof.
  intros H. unfold py_truediv. destruct (Req_dec_T y 0); [contradiction|reflexivity].
Qed.

Lemma py_truediv_zero (x : R) :
  py_truediv (Some x) (Some 0) = Raise ZeroDivisionError.
Proof.
  unfold py_truediv. destruct (Req_dec_T 0 0); [reflexivity|contradiction].
Qed.

(** ** Family selection *)

Section Family.

Variable E : env.

Lemma recover_lower (Mn Mw pdi : option R) (d : string) :
  recover_mass_dist E Mn Mw pdi d = recover_mass_dist E Mn Mw pdi (lower d).
Proof.
  unfold recover_mass_dist, dispatch. rewrite lower_idempotent. reflexivity.
Qed.

Lemma same_lowercase_same_result (Mn Mw pdi : option R) (d d' : string) :
  lower d = lower d' ->
  recover_mass_dist E Mn Mw pdi d = recover_mass_dist E Mn Mw pdi d'.
Proof.
  intros H. rewrite (recover_lower _ _ _ d), (recover_lower _ _ _ d'), H.
  reflexivity.
Qed.

(** Past the family test, the only exceptions are those of the two
    [assert]s and of the arithmetic. *)
Lemma recognised_never_ValueError (Mn Mw pdi : option R) (d : string) :
  recognised d = true ->
  recover_mass_dist E Mn Mw pdi d <> Raise ValueError.
Proof.
  intros Hr H. apply recognised_spec in Hr.
  destruct Hr as [Hd|Hd];
    [rewrite (recover_gaussian E _ _ _ _ Hd) in H
    |rewrite (recover_weibull E _ _ _ _ Hd) in H];
    destruct (negb (2 <=? pdi_arg_sum Mn Mw pdi)%nat);
    try discriminate;
    destruct (if (pdi_arg_sum Mn Mw pdi =? 3)%nat
              then assert_pdi_matches (entry Mn Mw pdi)
              else complete_moments (entry Mn Mw pdi)) as [s|e] eqn:Hs;
    simpl in H.
  - destruct (st_Mw s), (st_Mn s); simpl in H; discriminate.
  - revert Hs. unfold assert_pdi_matches, complete_moments,
      assign_Mn, assign_Mw, assign_pdi, py_truediv, py_mul, py_sub.
    destruct Mn, Mw, pdi; simpl; real_cases; simpl; real_cases;
      intros Hs; congruence.
  - destruct (st_Mn s); simpl in H; discriminate.
  - revert Hs. unfold assert_pdi_matches, complete_moments,
      assign_Mn, assign_Mw, assign_pdi, py_truediv, py_mul, py_sub.
    destruct Mn, Mw, pdi; simpl; real_cases; simpl; real_cases;
      intros Hs; congruence.
Qed.

(** C9.  The family name is matched case-insensitively: a call with any
    spelling [d] behaves as the call with [lower d] (so spellings with
    the same lower-casing, such as ['Gaussian'] and ['gaussian'], give the
    same result), and the call is rejected with [ValueError] exactly when
    [lower d] is neither ["gaussian"] nor ["weibull"]. *)
Theorem family_matched_case_insensitively
    (Mn Mw pdi : option R) (d : string) :
  recover_mass_dist E Mn Mw pdi d = recover_mass_dist E Mn Mw pdi (lower d)
  /\ (recover_mass_dist E Mn Mw pdi d = Raise ValueError <->
      lower d <> "gaussian"%string /\ lower d <> "weibull"%string).
Proof.
  split; [apply recover_lower|]. split.
  - intros H. destruct (recognised d) eqn:Hr.
    + exfalso. exact (recognised_never_ValueError Mn Mw pdi d Hr H).
    + unfold recognised in Hr. apply orb_false_iff in Hr.
      rewrite !String.eqb_neq in Hr. exact Hr.
  - intros [H1 H2]. apply recover_unrecognised.
    unfold recognised. apply orb_false_iff.
    rewrite !String.eqb_neq. split; assumption.
Qed.

(** C10.  A call that leaves the family out takes the Gaussian path: it
    returns what the call with ['Gaussian'], and with the lowercase
    ['gaussian'], returns. *)
Theorem omitted_family_defaults_to_gaussian (Mn Mw pdi : option R) :
  recover_mass_dist_call E Mn Mw pdi None =
    recover_mass_dist_call E Mn Mw pdi (Some "Gaussian"%string)
  /\ recover_mass_dist_call E Mn Mw pdi None =
     recover_mass_dist E Mn Mw pdi "gaussian".
Proof.
  split.
  - reflexivity.
  - unfold recover_mass_dist_call.
    rewrite (recover_gaussian E Mn Mw pdi "Gaussian" lower_Gaussian).
    rewrite (recover_gaussian E Mn Mw pdi "gaussian" lower_gaussian).
    reflexivity.
Qed.

End Family.

(** ** Counting and completing the supplied moments *)

Section Completion.

Variable E : env.

Lemma recover_recognised (Mn Mw pdi : option R) (d : string) :
  recognised d = true ->
  recover_mass_dist E Mn Mw pdi d =
  if negb (2 <=? pdi_arg_sum Mn Mw pdi)%nat
  then Raise (AssertionError msg_two_of_three)
  else
    s <- (if (pdi_arg_sum Mn Mw pdi =? 3)%nat
          then assert_pdi_matches (entry Mn Mw pdi)
          else complete_moments (entry Mn Mw pdi)) ;;
    dispatch E d s.
Proof.
  intros H. unfold recover_mass_dist.
  unfold recognised in H. apply orb_true_iff in H.
  destruct H as [-> | ->]; [|rewrite andb_false_r]; reflexivity.
Qed.

(** C6.  With a recognised family, a call that supplies fewer than two of
    [Mn], [Mw], [pdi] raises the [AssertionError] of the first [assert]
    ('At least two of [pdi, M_n, M_w] must be given.'), so no density is
    returned; a call supplying only [pdi] is one such call. *)
Theorem fewer_than_two_moments_rejected
    (Mn Mw pdi : option R) (d : string) :
  recognised d = true ->
  (pdi_arg_sum Mn Mw pdi < 2)%nat ->
  recover_mass_dist E Mn Mw pdi d = Raise (AssertionError msg_two_of_three).
Proof.
  intros Hd Hn. rewrite (recover_recognised _ _ _ _ Hd).
  apply Nat.leb_gt in Hn. rewrite Hn. reflexivity.
Qed.

Example only_pdi_supplied (p : R) :
  recover_mass_dist_call E None None (Some p) None =
  Raise (AssertionError msg_two_of_three).
Proof. reflexivity. Qed.

(** Whatever the family string, such a call returns nothing. *)
Lemma fewer_than_two_moments_never_returns
    (Mn Mw pdi : option R) (d : string) :
  (pdi_arg_sum Mn Mw pdi < 2)%nat ->
  exists e, recover_mass_dist E Mn Mw pdi d = Raise e.
Proof.
  intros Hn. destruct (recognised d) eqn:Hd.
  - exists (AssertionError msg_two_of_three).
    rewrite (recover_recognised _ _ _ _ Hd).
    apply Nat.leb_gt in Hn. rewrite Hn. reflexivity.
  - exists ValueError. apply recover_unrecognised. exact Hd.
Qed.

Lemma complete_missing_Mn (Mw pdi : R) :
  pdi <> 0 ->
  complete_moments (entry None (Some Mw) (Some pdi)) =
  Ret {| st_Mn := Some (Mw / pdi); st_Mw := Some Mw; st_pdi := Some pdi;
         st_fired := [Assign_Mn] |}.
Proof.
  intros H. unfold complete_moments, assign_Mn, entry.
  cbn [st_Mn st_Mw st_pdi st_fired].
  rewrite (py_truediv_Some _ _ H). reflexivity.
Qed.

Lemma complete_missing_Mw (Mn pdi : R) :
  complete_moments (entry (Some Mn) None (Some pdi)) =
  Ret {| st_Mn := Some Mn; st_Mw := Some (pdi * Mn); st_pdi := Some pdi;
         st_fired := [Assign_Mw] |}.
Proof. reflexivity. Qed.

Lemma complete_missing_pdi (Mn Mw : R) :
  Mn <> 0 ->
  complete_moments (entry (Some Mn) (Some Mw) None) =
  Ret {| st_Mn := Some Mn; st_Mw := Some Mw; st_pdi := Some (Mw / Mn);
         st_fired := [Assign_pdi] |}.
Proof.
  intros H. unfold complete_moments, assign_Mn, assign_Mw, assign_pdi, entry.
  cbn [st_Mn st_Mw st_pdi st_fired bind].
  rewrite (py_truediv_Some _ _ H). reflexivity.
Qed.

(** C7.  When exactly two of the three are supplied (with non-zero
    divisors), the call completes the triple before dispatching: a missing
    [Mn] becomes [Mw / pdi], a missing [Mw] becomes [pdi * Mn], a missing
    [pdi] becomes [Mw / Mn]; in each case exactly one assignment runs and
    the two supplied values are left as they were. *)
Theorem exactly_two_supplied_completes_the_third
    (Mn Mw pdi : R) (d : string) :
  Mn <> 0 -> pdi <> 0 -> recognised d = true ->
  let done (a b c : R) (f : assignment) :=
    {| st_Mn := Some a; st_Mw := Some b; st_pdi := Some c;
       st_fired := [f] |} in
  (complete_moments (entry None (Some Mw) (Some pdi)) =
     Ret (done (Mw / pdi) Mw pdi Assign_Mn)
   /\ recover_mass_dist E None (Some Mw) (Some pdi) d =
      dispatch E d (done (Mw / pdi) Mw pdi Assign_Mn))
  /\ (complete_moments (entry (Some Mn) None (Some pdi)) =
        Ret (done Mn (pdi * Mn) pdi Assign_Mw)
      /\ recover_mass_dist E (Some Mn) None (Some pdi) d =
         dispatch E d (done Mn (pdi * Mn) pdi Assign_Mw))
  /\ (complete_moments (entry (Some Mn) (Some Mw) None) =
        Ret (done Mn Mw (Mw / Mn) Assign_pdi)
      /\ recover_mass_dist E (Some Mn) (Some Mw) None d =
         dispatch E d (done Mn Mw (Mw / Mn) Assign_pdi)).
Proof.
  intros HMn Hpdi Hd done.
  repeat split; rewrite ?(recover_recognised _ _ _ _ Hd); simpl;
    rewrite ?(complete_missing_Mn _ _ Hpdi), ?complete_missing_Mw,
      ?(complete_missing_pdi _ _ HMn); reflexivity.
Qed.

(** A zero divisor: the same assignment is attempted and raises. *)
Lemma complete_missing_Mn_zero_pdi (Mw : R) :
  complete_moments (entry None (Some Mw) (Some 0)) = Raise ZeroDivisionError.
Proof.
  unfold complete_moments, assign_Mn, entry.
  cbn [st_Mn st_Mw st_pdi st_fired].
  rewrite py_truediv_zero. reflexivity.
Qed.

Lemma complete_missing_pdi_zero_Mn (Mw : R) :
  complete_moments (entry (Some 0) (Some Mw) None) = Raise ZeroDivisionError.
Proof.
  unfold complete_moments, assign_Mn, assign_Mw, assign_pdi, entry.
  cbn [st_Mn st_Mw st_pdi st_fired bind].
  rewrite py_truediv_zero. reflexivity.
Qed.

(** With all three supplied nothing is assigned: the values pass through
    the consistency [assert] unchanged. *)
Lemma three_supplied_assigns_nothing (Mn Mw pdi : R) (s : locals) :
  assert_pdi_matches (entry (Some Mn) (Some Mw) (Some pdi)) = Ret s ->
  s = entry (Some Mn) (Some Mw) (Some pdi).
Proof.
  unfold assert_pdi_matches, py_truediv. simpl.
  destruct (Req_dec_T Mn 0); simpl; [discriminate|].
  destruct (Rlt_dec (pdi - Mw / Mn) (1 / 100000)); congruence.
Qed.

End Completion.

(** ** Dispatch on completed moments *)

Section Dispatch.

Variable E : env.

Lemma dispatch_gaussian (d : string) (Mn Mw : R) (pdi : option R)
    (f : list assignment) :
  lower d = "gaussian"%string ->
  dispatch E d {| st_Mn := Some Mn; st_Mw := Some Mw; st_pdi := pdi;
                  st_fired := f |} =
  Ret (Some (GaussianPdf Mn (Mn * (Mw - Mn)))).
Proof. intros H. unfold dispatch. rewrite H. reflexivity. Qed.

Lemma dispatch_weibull (d : string) (Mn Mw : R) (pdi : option R)
    (f : list assignment) :
  lower d = "weibull"%string ->
  dispatch E d {| st_Mn := Some Mn; st_Mw := Some Mw; st_pdi := pdi;
                  st_fired := f |} =
  let k := optimize_root E (fun x => f1 E x (weib_M_n E) (weib_M_w E)) 1 in
  Ret (Some (WeibullPdf k (f2 E Mn k))).
Proof. intros H. unfold dispatch. rewrite H. reflexivity. Qed.

Lemma recover_Mn_Mw (Mn Mw : R) (d : string) :
  recognised d = true -> Mn <> 0 ->
  recover_mass_dist E (Some Mn) (Some Mw) None d =
  dispatch E d {| st_Mn := Some Mn; st_Mw := Some Mw;
                  st_pdi := Some (Mw / Mn); st_fired := [Assign_pdi] |}.
Proof.
  intros Hd HMn. rewrite (recover_recognised _ _ _ _ _ Hd).
  cbn [pdi_arg_sum is_not_None fold_right Nat.add Nat.leb Nat.eqb negb].
  rewrite (complete_missing_pdi _ _ HMn). reflexivity.
Qed.

Lemma recover_Mn_zero (Mw : R) (d : string) :
  recognised d = true ->
  recover_mass_dist E (Some 0) (Some Mw) None d = Raise ZeroDivisionError.
Proof.
  intros Hd. rewrite (recover_recognised _ _ _ _ _ Hd).
  cbn [pdi_arg_sum is_not_None fold_right Nat.add Nat.leb Nat.eqb negb].
  unfold complete_moments, assign_Mn, assign_Mw, assign_pdi, entry.
  cbn [st_Mn st_Mw st_pdi st_fired bind].
  rewrite py_truediv_zero. reflexivity.
Qed.

(** The consistency [assert] compares the signed difference with the
    tolerance. *)
Lemma recover_three_accepted (Mn Mw pdi : R) (d : string) :
  recognised d = true -> Mn <> 0 ->
  pdi - Mw / Mn < 1 / 100000 ->
  recover_mass_dist E (Some Mn) (Some Mw) (Some pdi) d =
  dispatch E d (entry (Some Mn) (Some Mw) (Some pdi)).
Proof.
  intros Hd HMn Hlt. rewrite (recover_recognised _ _ _ _ _ Hd).
  cbn [pdi_arg_sum is_not_None fold_right Nat.add Nat.leb Nat.eqb negb].
  unfold assert_pdi_matches, entry.
  cbn [st_Mn st_Mw st_pdi st_fired].
  rewrite (py_truediv_Some _ _ HMn).
  cbn [bind py_sub].
  destruct (Rlt_dec (pdi - Mw / Mn) (1 / 100000)); [reflexivity|contradiction].
Qed.

Lemma recover_three_rejected (Mn Mw pdi : R) (d : string) :
  recognised d = true -> Mn <> 0 ->
  1 / 100000 <= pdi - Mw / Mn ->
  recover_mass_dist E (Some Mn) (Some Mw) (Some pdi) d =
  Raise (AssertionError msg_pdi_mismatch).
Proof.
  intros Hd HMn Hge. rewrite (recover_recognised _ _ _ _ _ Hd).
  cbn [pdi_arg_sum is_not_None fold_right Nat.add Nat.leb Nat.eqb negb].
  unfold assert_pdi_matches, entry.
  cbn [st_Mn st_Mw st_pdi st_fired].
  rewrite (py_truediv_Some _ _ HMn).
  cbn [bind py_sub].
  destruct (Rlt_dec (pdi - Mw / Mn) (1 / 100000)); [lra|reflexivity].
Qed.

Lemma dispatch_entry_returns (Mn Mw pdi : R) (d : string) :
  recognised d = true ->
  exists f, dispatch E d (entry (Some Mn) (Some Mw) (Some pdi)) =
            Ret (Some f).
Proof.
  intros Hd. apply recognised_spec in Hd. destruct Hd as [Hd|Hd].
  - eexists. unfold entry. apply (dispatch_gaussian _ _ _ _ _ Hd).
  - eexists. unfold entry. apply (dispatch_weibull _ _ _ _ _ Hd).
Qed.

(** With all three supplied and [Mn] non-zero, the call is rejected as
    inconsistent exactly when [pdi] exceeds [Mw / Mn] by the tolerance. *)
Lemma consistency_check_is_one_sided (Mn Mw pdi : R) (d : string) :
  recognised d = true -> Mn <> 0 ->
  (recover_mass_dist E (Some Mn) (Some Mw) (Some pdi) d =
     Raise (AssertionError msg_pdi_mismatch)
   <-> 1 / 100000 <= pdi - Mw / Mn).
Proof.
  intros Hd HMn. split.
  - intros H. destruct (Rlt_dec (pdi - Mw / Mn) (1 / 100000)) as [Hlt|Hge].
    + rewrite (recover_three_accepted _ _ _ _ Hd HMn Hlt) in H.
      destruct (dispatch_entry_returns Mn Mw pdi d Hd) as [f Hf].
      rewrite Hf in H. discriminate.
    + lra.
  - apply recover_three_rejected; assumption.
Qed.

End Dispatch.

(** ** The Gaussian family *)

Lemma gaussian_recognised (d : string) :
  lower d = "gaussian"%string -> recognised d = true.
Proof. intros H. apply recognised_spec. left. exact H. Qed.

Lemma weibull_recognised (d : string) :
  lower d = "weibull"%string -> recognised d = true.
Proof. intros H. apply recognised_spec. right. exact H. Qed.

Lemma call_gaussian (Mn sigma x : R) :
  sigma <> 0 ->
  call (GaussianPdf Mn sigma) x =
  Ret (Some (exp (- (x - Mn) ^ 2 / (2 * sigma)))).
Proof.
  intros H. unfold call. destruct (Req_dec_T (2 * sigma) 0); [lra|reflexivity].
Qed.

(** The Gaussian closure is [gauss] with unit amplitude. *)
Lemma call_gaussian_is_gauss (Mn sigma x : R) :
  sigma <> 0 ->
  call (GaussianPdf Mn sigma) x = Ret (Some (gauss x Mn sigma 1)).
Proof.
  intros H. rewrite (call_gaussian _ _ _ H). unfold gauss.
  rewrite Rmult_1_l. reflexivity.
Qed.

(** Whenever the Gaussian closure yields a number, it is positive. *)
Lemma call_gaussian_positive (Mn sigma x v : R) :
  call (GaussianPdf Mn sigma) x = Ret (Some v) -> 0 < v.
Proof.
  unfold call. destruct (Req_dec_T (2 * sigma) 0); [discriminate|].
  intros H. injection H as <-. apply exp_pos.
Qed.

Section Gaussian.

Variable E : env.

(** C2.  For [Mw > Mn > 0], Gaussian recovery has mean [Mn] and sigma
    [Mn * (Mw - Mn)] exactly: [recovered_gauss_sigma] computes that
    product, and [recover_mass_dist] with the Gaussian family (with [pdi]
    left out, or supplied and passing the consistency [assert]) returns
    the closure [x |-> exp (-(x - Mn)^2 / (2 * sigma))] over these two
    values. *)
Theorem gaussian_recovery_closed_form
    (Mn Mw : R) (pdi : option R) (d : string) :
  0 < Mn -> Mn < Mw ->
  lower d = "gaussian"%string ->
  pdi = None \/ (exists p, pdi = Some p /\ p - Mw / Mn < 1 / 100000) ->
  recovered_gauss_sigma Mn Mw = Mn * (Mw - Mn)
  /\ recover_mass_dist E (Some Mn) (Some Mw) pdi d =
     Ret (Some (GaussianPdf Mn (recovered_gauss_sigma Mn Mw)))
  /\ forall x,
       call (GaussianPdf Mn (recovered_gauss_sigma Mn Mw)) x =
       Ret (Some (exp (- (x - Mn) ^ 2 / (2 * (Mn * (Mw - Mn)))))).
Proof.
  intros HMn HMw Hd Hpdi.
  assert (HMn0 : Mn <> 0) by lra.
  pose proof (gaussian_recognised d Hd) as Hr.
  unfold recovered_gauss_sigma.
  split; [reflexivity|split].
  - destruct Hpdi as [-> | [p [-> Hp]]].
    + rewrite (recover_Mn_Mw E Mn Mw d Hr HMn0).
      apply (dispatch_gaussian E d Mn Mw _ _ Hd).
    + rewrite (recover_three_accepted E Mn Mw p d Hr HMn0 Hp).
      apply (dispatch_gaussian E d Mn Mw _ _ Hd).
  - intros x. apply call_gaussian. nra.
Qed.

(** C8.  The closure returned for [Mn = 50], [Mw = 60] with the Gaussian
    family has value [1] at [50] and is symmetric about [50]. *)
Theorem gaussian_50_60_peak_and_symmetry :
  exists f,
    recover_mass_dist E (Some 50) (Some 60) None "gaussian" = Ret (Some f)
    /\ call f 50 = Ret (Some 1)
    /\ forall delta, call f (50 + delta) = call f (50 - delta).
Proof.
  exists (GaussianPdf 50 (50 * (60 - 50))).
  assert (H50 : (50 : R) <> 0) by lra.
  assert (Hs : 50 * (60 - 50) <> 0) by lra.
  split; [|split].
  - rewrite (recover_Mn_Mw E 50 60 "gaussian" eq_refl H50).
    apply (dispatch_gaussian E "gaussian" 50 60 _ _ eq_refl).
  - rewrite (call_gaussian _ _ _ Hs).
    replace (- (50 - 50) ^ 2 / (2 * (50 * (60 - 50)))) with 0 by (field; lra).
    rewrite exp_0. reflexivity.
  - intros delta. rewrite !(call_gaussian _ _ _ Hs).
    replace ((50 + delta - 50) ^ 2) with ((50 - delta - 50) ^ 2) by ring.
    reflexivity.
Qed.

(** C3.  The consistency [assert] tests the signed difference
    [pdi - Mw / Mn], not its absolute value: the call with [Mn = 50],
    [Mw = 60], [pdi = 1] is accepted and returns the Gaussian closure,
    although [|pdi - Mw / Mn| = 0.2] is far above the tolerance. *)
Theorem pdi_below_ratio_passes_consistency_check :
  1 / 100000 <= Rabs (1 - 60 / 50)
  /\ recover_mass_dist E (Some 50) (Some 60) (Some 1) "gaussian" =
     Ret (Some (GaussianPdf 50 (50 * (60 - 50)))).
Proof.
  split.
  - unfold Rabs. destruct (Rcase_abs (1 - 60 / 50)); lra.
  - assert (H50 : (50 : R) <> 0) by lra.
    rewrite (recover_three_accepted E 50 60 1 "gaussian" eq_refl H50)
      by lra.
    apply (dispatch_gaussian E "gaussian" 50 60 _ _ eq_refl).
Qed.

(** C4, as the code has it.  There is no check of the ordering or the
    sign of the moments: for [Mw <= Mn] with [Mn] non-zero (and [pdi] left
    out) the call returns a closure for both families; for the Gaussian
    family it is the one over [Mn] and [Mn * (Mw - Mn)], a sigma that is
    not positive when [Mn] is. *)
Theorem unordered_moments_are_not_rejected (Mn Mw : R) :
  Mn <> 0 -> Mw <= Mn ->
  recover_mass_dist E (Some Mn) (Some Mw) None "gaussian" =
    Ret (Some (GaussianPdf Mn (Mn * (Mw - Mn))))
  /\ (0 < Mn -> Mn * (Mw - Mn) <= 0)
  /\ exists f,
       recover_mass_dist E (Some Mn) (Some Mw) None "weibull" =
       Ret (Some f).
Proof.
  intros HMn Hle. split; [|split].
  - rewrite (recover_Mn_Mw E Mn Mw "gaussian" eq_refl HMn).
    apply (dispatch_gaussian E "gaussian" Mn Mw _ _ eq_refl).
  - intros Hpos. nra.
  - eexists. rewrite (recover_Mn_Mw E Mn Mw "weibull" eq_refl HMn).
    apply (dispatch_weibull E "weibull" Mn Mw _ _ eq_refl).
Qed.

End Gaussian.

(** ** The Weibull family *)

Lemma Int_part_IZR (n : Z) : Int_part (IZR n) = n.
Proof. symmetry. apply Int_part_spec. lra. Qed.

Lemma np_power_positive_base (x y : R) :
  0 < x -> np_power x y = Some (Rpower x y).
Proof.
  intros H. unfold np_power. destruct (Rlt_dec 0 x); [reflexivity|contradiction].
Qed.

Lemma np_power_negative_base_integer (x : R) (n : Z) :
  x < 0 -> np_power x (IZR n) = Some (powerRZ x n).
Proof.
  intros H. unfold np_power.
  destruct (Rlt_dec 0 x); [lra|].
  destruct (Req_dec_T x 0); [lra|].
  rewrite Int_part_IZR.
  destruct (Req_dec_T (IZR n) (IZR n)); [reflexivity|contradiction].
Qed.

Lemma np_power_negative_base_fraction (x y : R) :
  x < 0 -> y <> IZR (Int_part y) -> np_power x y = None.
Proof.
  intros H Hy. unfold np_power.
  destruct (Rlt_dec 0 x); [lra|].
  destruct (Req_dec_T x 0); [lra|].
  destruct (Req_dec_T y (IZR (Int_part y))); [contradiction|reflexivity].
Qed.

(** A power of a non-zero base, when it is a number, is not zero. *)
Lemma np_power_nonzero (x y p : R) :
  x <> 0 -> np_power x y = Some p -> p <> 0.
Proof.
  intros Hx. unfold np_power.
  destruct (Rlt_dec 0 x).
  - intros H. injection H as <-. unfold Rpower.
    pose proof (exp_pos (y * ln x)). lra.
  - destruct (Req_dec_T x 0); [contradiction|].
    destruct (Req_dec_T y (IZR (Int_part y))); [|discriminate].
    intros H. injection H as <-. apply powerRZ_NOR. exact Hx.
Qed.

(** On positive arguments, with a positive scale, the closure computes the
    Weibull density. *)
Lemma call_weibull_positive_argument (k lam x : R) :
  0 < lam -> 0 < x ->
  call (WeibullPdf k lam) x =
  Ret (Some (k / lam * Rpower (x / lam) (k - 1) * exp (- Rpower (x / lam) k))).
Proof.
  intros Hl Hx. unfold call.
  destruct (Req_dec_T lam 0); [lra|].
  assert (Hu : 0 < x / lam) by (apply Rdiv_lt_0_compat; assumption).
  rewrite !(np_power_positive_base _ _ Hu). reflexivity.
Qed.

(** The Weibull closure is [weib] with unit coefficient. *)
Lemma call_weibull_is_weib (k lam x : R) :
  call (WeibullPdf k lam) x = Ret (weib x k lam 1).
Proof.
  unfold call, weib. destruct (Req_dec_T lam 0); [reflexivity|].
  destruct (np_power (x / lam) (k - 1)); [|reflexivity].
  destruct (np_power (x / lam) k); [|reflexivity].
  rewrite Rmult_1_l. reflexivity.
Qed.

(** At [0], for a shape above [1], the closure yields [0]. *)
Lemma call_weibull_at_zero (k lam : R) :
  lam <> 0 -> 1 < k -> call (WeibullPdf k lam) 0 = Ret (Some 0).
Proof.
  intros Hl Hk. unfold call. destruct (Req_dec_T lam 0); [contradiction|].
  replace (0 / lam) with 0 by (unfold Rdiv; ring).
  unfold np_power.
  destruct (Rlt_dec 0 0); [lra|].
  destruct (Req_dec_T 0 0); [|contradiction].
  destruct (Rlt_dec 0 (k - 1)); [|lra].
  destruct (Rlt_dec 0 k); [|lra].
  do 2 f_equal. ring.
Qed.

(** On a negative argument the same formula is evaluated: with shape [2]
    and scale [1] the value at [-1] is negative. *)
Example call_weibull_negative_value :
  call (WeibullPdf 2 1) (-1) = Ret (Some (- (2 * exp (-1))))
  /\ - (2 * exp (-1)) < 0.
Proof.
  split.
  - unfold call. destruct (Req_dec_T 1 0); [lra|].
    replace (-1 / 1) with (-1) by field.
    replace (2 - 1) with 1 by ring.
    rewrite !np_power_negative_base_integer by lra.
    simpl. do 2 f_equal.
    replace (- (-1 * (-1 * 1))) with (-1) by ring. field.
  - pose proof (exp_pos (-1)). lra.
Qed.

(** With a fractional shape the value at a negative argument is [nan]. *)
Example call_weibull_nan : call (WeibullPdf (3 / 2) 1) (-1) = Ret None.
Proof.
  unfold call. destruct (Req_dec_T 1 0); [lra|].
  replace (-1 / 1) with (-1) by field.
  replace (3 / 2 - 1) with (1 / 2) by field.
  assert (H : Int_part (1 / 2) = 0%Z)
    by (symmetry; apply Int_part_spec; lra).
  rewrite (np_power_negative_base_fraction (-1) (1 / 2)); [reflexivity|lra|].
  rewrite H. lra.
Qed.

(** The packaged moment relations of cell 14 are those of cell 10. *)
Lemma weibull_k_expression_is_f1 (E : env) (x Mn Mw : R) :
  weibull_k_expression E x Mn Mw = f1 E x Mn Mw.
Proof. reflexivity. Qed.

Lemma weibull_lambda_expression_is_f2 (E : env) (Mn k : R) :
  weibull_lambda_expression E Mn k = f2 E Mn k.
Proof. reflexivity. Qed.

Lemma f2_zero_shape (E : env) (Mn : R) : f2 E Mn 0 = 0.
Proof. unfold f2. rewrite Rmult_0_r. unfold Rdiv. apply Rmult_0_l. Qed.

(** The closure built from a shape [k] and the scale [f2 Mn k] never
    yields [0] on a negative argument. *)
Lemma call_weibull_negative_argument (E : env) (Mn k x : R) :
  x < 0 -> call (WeibullPdf k (f2 E Mn k)) x <> Ret (Some 0).
Proof.
  intros Hx. unfold call.
  destruct (Req_dec_T (f2 E Mn k) 0) as [|Hl]; [discriminate|].
  assert (Hk : k <> 0).
  { intros ->. apply Hl. apply f2_zero_shape. }
  assert (Hu : x / f2 E Mn k <> 0).
  { unfold Rdiv. apply Rmult_integral_contrapositive_currified; [lra|].
    apply Rinv_neq_0_compat. exact Hl. }
  destruct (np_power (x / f2 E Mn k) (k - 1)) as [p|] eqn:Hp;
    [|discriminate].
  destruct (np_power (x / f2 E Mn k) k) as [q|] eqn:Hq; [|discriminate].
  intros H. injection H as H.
  pose proof (np_power_nonzero _ _ _ Hu Hp) as Hp0.
  pose proof (exp_pos (- q)) as He.
  assert (Hkl : k / f2 E Mn k <> 0).
  { unfold Rdiv. apply Rmult_integral_contrapositive_currified; [exact Hk|].
    apply Rinv_neq_0_compat. exact Hl. }
  apply Rmult_integral in H. destruct H as [H|H]; [|lra].
  apply Rmult_integral in H. destruct H as [H|H]; contradiction.
Qed.

Section Weibull.

Variable E : env.

(** C1.  The Weibull path solves the shape equation for the module-level
    [weib_M_n], [weib_M_w], not for the call's own moments: the call with
    [Mn = 50], [Mw = 60] returns the closure over [solved_shape] and
    [f2 50 solved_shape], and two calls that differ only in [Mw] return
    the same result. *)
Theorem weibull_shape_solved_for_module_moments :
  recover_mass_dist E (Some 50) (Some 60) None "weibull" =
    Ret (Some (WeibullPdf (solved_shape E) (f2 E 50 (solved_shape E))))
  /\ forall Mn Mw Mw',
       recover_mass_dist E (Some Mn) (Some Mw) None "weibull" =
       recover_mass_dist E (Some Mn) (Some Mw') None "weibull".
Proof.
  split.
  - assert (H50 : (50 : R) <> 0) by lra.
    rewrite (recover_Mn_Mw E 50 60 "weibull" eq_refl H50).
    apply (dispatch_weibull E "weibull" 50 60 _ _ eq_refl).
  - intros Mn Mw Mw'. destruct (Req_dec_T Mn 0) as [->|HMn].
    + rewrite !(recover_Mn_zero E _ "weibull" eq_refl). reflexivity.
    + rewrite !(recover_Mn_Mw E Mn _ "weibull" eq_refl HMn).
      rewrite !(dispatch_weibull E "weibull" Mn _ _ _ eq_refl).
      reflexivity.
Qed.

(** C5.  The Weibull closure has no branch for negative arguments: for
    every call that supplies a non-zero [Mn] and [Mw], the returned
    closure applied to a negative [x] evaluates the density formula
    there, and the result is never the number [0] (it is [nan] or a
    non-zero value). *)
Theorem weibull_closure_not_zero_on_negatives (Mn Mw x : R) :
  Mn <> 0 -> x < 0 ->
  exists f,
    recover_mass_dist E (Some Mn) (Some Mw) None "weibull" = Ret (Some f)
    /\ call f x <> Ret (Some 0).
Proof.
  intros HMn Hx.
  exists (WeibullPdf (solved_shape E) (f2 E Mn (solved_shape E))). split.
  - rewrite (recover_Mn_Mw E Mn Mw "weibull" eq_refl HMn).
    apply (dispatch_weibull E "weibull" Mn Mw _ _ eq_refl).
  - apply call_weibull_negative_argument. exact Hx.
Qed.

End Weibull.

(** * Instances on the concrete notebook state *)

Lemma gaussian_recovery_closed_form_witness :
  (0 < 50 /\ 50 < 60)
  /\ (recovered_gauss_sigma 50 60 = 50 * (60 - 50)
      /\ recover_mass_dist example_env (Some 50) (Some 60) None "Gaussian" =
         Ret (Some (GaussianPdf 50 (recovered_gauss_sigma 50 60)))
      /\ forall x,
           call (GaussianPdf 50 (recovered_gauss_sigma 50 60)) x =
           Ret (Some (exp (- (x - 50) ^ 2 / (2 * (50 * (60 - 50))))))).
Proof.
  split; [lra|].
  apply (gaussian_recovery_closed_form example_env 50 60 None "Gaussian");
    [lra | lra | reflexivity | left; reflexivity].
Defined.

Lemma fewer_than_two_moments_rejected_witness :
  (recognised "Gaussian" = true
   /\ (pdi_arg_sum None None (Some (6 / 5)%R) < 2)%nat)
  /\ recover_mass_dist example_env None None (Some (6 / 5)) "Gaussian" =
     Raise (AssertionError msg_two_of_three).
Proof.
  split; [split; [reflexivity | apply Nat.lt_succ_diag_r]|].
  apply (fewer_than_two_moments_rejected example_env None None
           (Some (6 / 5)) "Gaussian");
    [reflexivity | apply Nat.lt_succ_diag_r].
Defined.

Lemma exactly_two_supplied_completes_the_third_witness :
  (50 <> 0 /\ 6 / 5 <> 0 /\ recognised "weibull" = true)
  /\ (complete_moments (entry None (Some 60) (Some (6 / 5))) =
        Ret {| st_Mn := Some (60 / (6 / 5)); st_Mw := Some 60;
               st_pdi := Some (6 / 5); st_fired := [Assign_Mn] |}
      /\ complete_moments (entry (Some 50) None (Some (6 / 5))) =
         Ret {| st_Mn := Some 50; st_Mw := Some (6 / 5 * 50);
                st_pdi := Some (6 / 5); st_fired := [Assign_Mw] |}
      /\ complete_moments (entry (Some 50) (Some 60) None) =
         Ret {| st_Mn := Some 50; st_Mw := Some 60;
                st_pdi := Some (60 / 50); st_fired := [Assign_pdi] |}).
Proof.
  assert (H50 : 50 <> 0) by lra.
  assert (H65 : 6 / 5 <> 0) by lra.
  split; [repeat split; assumption|].
  destruct (exactly_two_supplied_completes_the_third example_env 50 60 (6 / 5)
              "weibull" H50 H65 eq_refl) as [[H1 _] [[H2 _] [H3 _]]].
  repeat split; assumption.
Defined.

Lemma unordered_moments_are_not_rejected_witness :
  (50 <> 0 /\ 40 <= 50)
  /\ recover_mass_dist example_env (Some 50) (Some 40) None "gaussian" =
     Ret (Some (GaussianPdf 50 (50 * (40 - 50)))).
Proof.
  assert (H50 : 50 <> 0) by lra.
  assert (Hle : 40 <= 50) by lra.
  split; [split; assumption|].
  exact (proj1 (unordered_moments_are_not_rejected example_env 50 40 H50 Hle)).
Defined.

Lemma weibull_closure_not_zero_on_negatives_witness :
  (50 <> 0 /\ -1 < 0)
  /\ exists f,
       recover_mass_dist example_env (Some 50) (Some 60) None "weibull" =
       Ret (Some f)
       /\ call f (-1) <> Ret (Some 0).
Proof.
  assert (H50 : 50 <> 0) by lra.
  assert (Hx : -1 < 0) by lra.
  split; [split; assumption|].
  exact (weibull_closure_not_zero_on_negatives example_env 50 60 (-1) H50 Hx).
Defined.

(** C4, as stated, fails: with [Mn = 50] and [Mw = 40] the Gaussian call
    raises nothing and returns a closure, whose sigma is [-500]. *)
Lemma ordering_violation_returns_closure :
  40 <= 50
  /\ recover_mass_dist example_env (Some 50) (Some 40) None "gaussian" =
     Ret (Some (GaussianPdf 50 (50 * (40 - 50))))
  /\ 50 * (40 - 50) = -500
  /\ forall e,
       recover_mass_dist example_env (Some 50) (Some 40) None "gaussian" <>
       Raise e.
Proof.
  assert (H50 : 50 <> 0) by lra.
  assert (H : recover_mass_dist example_env (Some 50) (Some 40) None
                "gaussian" = Ret (Some (GaussianPdf 50 (50 * (40 - 50))))).
  { rewrite (recover_Mn_Mw example_env 50 40 "gaussian" eq_refl H50).
    apply (dispatch_gaussian example_env "gaussian" 50 40 _ _ eq_refl). }
  split; [lra|]. split; [exact H|]. split; [lra|].
  intros e He. rewrite H in He. discriminate.
Qed.

(** * Further properties of the notebook's functions *)

(** ** The outcomes of [recover_mass_dist] *)

Section Outcomes.

Variable E : env.

(** The decision table of the function once the family is recognised. *)
Lemma recover_table (Mn Mw pdi : option R) (d : string) :
  recognised d = true ->
  recover_mass_dist E Mn Mw pdi d =
  match Mn, Mw, pdi with
  | Some m, Some w, Some p =>
      if Req_dec_T m 0 then Raise ZeroDivisionError
      else if Rlt_dec (p - w / m) (1 / 100000)
           then dispatch E d (entry (Some m) (Some w) (Some p))
           else Raise (AssertionError msg_pdi_mismatch)
  | Some m, Some w, None =>
      if Req_dec_T m 0 then Raise ZeroDivisionError
      else dispatch E d {| st_Mn := Some m; st_Mw := Some w;
                           st_pdi := Some (w / m);
                           st_fired := [Assign_pdi] |}
  | Some m, None, Some p =>
      dispatch E d {| st_Mn := Some m; st_Mw := Some (p * m);
                      st_pdi := Some p; st_fired := [Assign_Mw] |}
  | None, Some w, Some p =>
      if Req_dec_T p 0 then Raise ZeroDivisionError
      else dispatch E d {| st_Mn := Some (w / p); st_Mw := Some w;
                           st_pdi := Some p; st_fired := [Assign_Mn] |}
  | _, _, _ => Raise (AssertionError msg_two_of_three)
  end.
Proof.
  intros Hd. rewrite (recover_recognised E _ _ _ _ Hd).
  destruct Mn as [m|], Mw as [w|], pdi as [p|];
    cbn [pdi_arg_sum is_not_None fold_right Nat.add Nat.leb Nat.eqb negb];
    try reflexivity;
    unfold assert_pdi_matches, complete_moments, assign_Mn, assign_Mw,
      assign_pdi, entry, py_truediv, py_mul, py_sub;
    cbn [st_Mn st_Mw st_pdi st_fired bind app].
  - destruct (Req_dec_T m 0); [reflexivity|]. cbn [bind].
    destruct (Rlt_dec (p - w / m) (1 / 100000)); reflexivity.
  - destruct (Req_dec_T m 0); reflexivity.
  - destruct (Req_dec_T p 0); reflexivity.
Qed.

(** On completed locals the dispatch returns a closure. *)
Lemma dispatch_returns (d : string) (m w : R) (pdi : option R)
    (f : list assignment) :
  recognised d = true ->
  exists c, dispatch E d {| st_Mn := Some m; st_Mw := Some w; st_pdi := pdi;
                            st_fired := f |} = Ret (Some c).
Proof.
  intros Hd. apply recognised_spec in Hd. destruct Hd as [Hd|Hd]; eexists.
  - apply (dispatch_gaussian E _ _ _ _ _ Hd).
  - apply (dispatch_weibull E _ _ _ _ _ Hd).
Qed.

Ltac table_cases Mn Mw pdi :=
  destruct Mn as [?m|], Mw as [?w|], pdi as [?p|];
  unfold entry in *;
  repeat match goal with
    | H : context [Req_dec_T ?a ?b] |- _ => destruct (Req_dec_T a b)
    | H : context [Rlt_dec ?a ?b] |- _ => destruct (Rlt_dec a b)
    | |- context [Req_dec_T ?a ?b] => destruct (Req_dec_T a b)
    | |- context [Rlt_dec ?a ?b] => destruct (Rlt_dec a b)
    end.

(** X1.  Whatever its arguments, the call never raises [TypeError] (the
    arithmetic never meets a [None]) and never falls off the end returning
    [None]. *)
Theorem recover_never_TypeError_nor_None
    (Mn Mw pdi : option R) (d : string) :
  recover_mass_dist E Mn Mw pdi d <> Raise TypeError
  /\ recover_mass_dist E Mn Mw pdi d <> Ret None.
Proof.
  destruct (recognised d) eqn:Hd.
  - rewrite (recover_table Mn Mw pdi d Hd).
    split; intros H; table_cases Mn Mw pdi; try discriminate;
      match type of H with
      | dispatch E d {| st_Mn := Some ?a; st_Mw := Some ?b; st_pdi := ?c;
                        st_fired := ?f |} = _ =>
          destruct (dispatch_returns d a b c f Hd) as [c' Hc];
          rewrite Hc in H; discriminate
      end.
  - rewrite (recover_unrecognised E Mn Mw pdi d Hd). split; discriminate.
Qed.



End Outcomes.

(** ** Gaussian recovery: which moments are supplied, and degenerate moments *)

Section GaussianMore.

Variable E : env.

(** The dispatch reads [Mn] and [Mw] only. *)
Lemma dispatch_reads_Mn_Mw (d : string) (s s' : locals) :
  st_Mn s = st_Mn s' -> st_Mw s = st_Mw s' ->
  dispatch E d s = dispatch E d s'.
Proof. intros H1 H2. unfold dispatch. rewrite H1, H2. reflexivity. Qed.

(** X4.  For a consistent triple, [pdi = Mw / Mn] with [Mn] and [Mw]
    non-zero, it does not matter which two of the three are supplied, nor
    whether all three are: the four calls return the same result. *)
Theorem any_two_of_a_consistent_triple (Mn Mw : R) (d : string) :
  Mn <> 0 -> Mw <> 0 -> recognised d = true ->
  let pdi := Mw / Mn in
  recover_mass_dist E (Some Mn) None (Some pdi) d =
    recover_mass_dist E (Some Mn) (Some Mw) None d
  /\ recover_mass_dist E None (Some Mw) (Some pdi) d =
     recover_mass_dist E (Some Mn) (Some Mw) None d
  /\ recover_mass_dist E (Some Mn) (Some Mw) (Some pdi) d =
     recover_mass_dist E (Some Mn) (Some Mw) None d.
Proof.
  intros HMn HMw Hd pdi.
  assert (Hpdi : pdi <> 0).
  { unfold pdi, Rdiv. apply Rmult_integral_contrapositive_currified;
      [exact HMw | apply Rinv_neq_0_compat; exact HMn]. }
  assert (H1 : pdi * Mn = Mw) by (unfold pdi; field; exact HMn).
  assert (H2 : Mw / pdi = Mn) by (unfold pdi; field; split; assumption).
  rewrite !(recover_table E _ _ _ d Hd).
  destruct (Req_dec_T Mn 0); [contradiction|].
  destruct (Req_dec_T pdi 0); [contradiction|].
  destruct (Rlt_dec (pdi - Mw / Mn) (1 / 100000)) as [|Hn];
    [|exfalso; apply Hn; unfold pdi; lra].
  repeat split; apply dispatch_reads_Mn_Mw; cbn [st_Mn st_Mw entry];
    rewrite ?H1, ?H2; reflexivity.
Qed.

(** X5.  For [Mw > Mn > 0] the returned Gaussian closure takes values in
    (0, 1], and the value [1] only at [Mn]. *)
Theorem gaussian_closure_bounded_by_its_peak (Mn Mw : R) (d : string) :
  0 < Mn -> Mn < Mw -> lower d = "gaussian"%string ->
  exists f,
    recover_mass_dist E (Some Mn) (Some Mw) None d = Ret (Some f)
    /\ forall x, exists v,
         call f x = Ret (Some v) /\ 0 < v <= 1 /\ (v = 1 <-> x = Mn).
Proof.
  intros HMn HMw Hd.
  assert (HMn0 : Mn <> 0) by lra.
  assert (Hs : 0 < Mn * (Mw - Mn)) by nra.
  exists (GaussianPdf Mn (Mn * (Mw - Mn))). split.
  - rewrite (recover_Mn_Mw E Mn Mw d (gaussian_recognised d Hd) HMn0).
    apply (dispatch_gaussian E d Mn Mw _ _ Hd).
  - intros x. eexists. split; [apply call_gaussian; lra|].
    set (t := - (x - Mn) ^ 2 / (2 * (Mn * (Mw - Mn)))).
    assert (Ht : t <= 0).
    { unfold t, Rdiv. rewrite <- Ropp_mult_distr_l.
      assert (0 <= (x - Mn) ^ 2 * / (2 * (Mn * (Mw - Mn)))); [|lra].
      apply Rmult_le_pos; [apply pow2_ge_0|].
      apply Rlt_le, Rinv_0_lt_compat. lra. }
    assert (Ht0 : t = 0 <-> x = Mn).
    { unfold t. split.
      - intros H0.
        assert (Hq : (x - Mn) ^ 2 = 0).
        { apply (Rmult_eq_compat_r (2 * (Mn * (Mw - Mn)))) in H0.
          unfold Rdiv in H0. rewrite Rmult_assoc, Rinv_l in H0 by lra.
          lra. }
        destruct (Req_dec_T x Mn) as [|Hne]; [assumption|].
        exfalso. apply (pow_nonzero (x - Mn) 2); [lra | exact Hq].
      - intros ->. unfold Rdiv. ring. }
    split; [split; [apply exp_pos|]|].
    + destruct Ht as [Hlt|Heq].
      * apply Rlt_le. rewrite <- exp_0. apply exp_increasing. exact Hlt.
      * rewrite Heq, exp_0. lra.
    + rewrite <- Ht0. split.
      * intros H1. apply exp_inv. rewrite exp_0. exact H1.
      * intros ->. exact exp_0.
Qed.

(** X6.  For [Mw < Mn] with [Mn > 0] the call still returns a Gaussian
    closure; its sigma is negative, so its values are at least [1] and
    grow without bound away from [Mn]. *)
Theorem gaussian_closure_for_inverted_moments (Mn Mw : R) (d : string) :
  0 < Mn -> Mw < Mn -> lower d = "gaussian"%string ->
  exists f,
    recover_mass_dist E (Some Mn) (Some Mw) None d = Ret (Some f)
    /\ (forall x, exists v, call f x = Ret (Some v) /\ 1 <= v)
    /\ forall bound, exists x v, call f x = Ret (Some v) /\ bound < v.
Proof.
  intros HMn HMw Hd.
  assert (HMn0 : Mn <> 0) by lra.
  set (a := Mn * (Mn - Mw)).
  assert (Ha : 0 < a) by (unfold a; nra).
  assert (Hs : Mn * (Mw - Mn) = - a) by (unfold a; ring).
  assert (Hexp : forall x,
             - (x - Mn) ^ 2 / (2 * (Mn * (Mw - Mn))) = (x - Mn) ^ 2 / (2 * a)).
  { intros x. rewrite Hs. field. lra. }
  exists (GaussianPdf Mn (Mn * (Mw - Mn))). split; [|split].
  - rewrite (recover_Mn_Mw E Mn Mw d (gaussian_recognised d Hd) HMn0).
    apply (dispatch_gaussian E d Mn Mw _ _ Hd).
  - intros x. eexists. split; [apply call_gaussian; lra|].
    rewrite Hexp.
    assert (Ht : 0 <= (x - Mn) ^ 2 / (2 * a)).
    { unfold Rdiv. apply Rmult_le_pos; [apply pow2_ge_0|].
      apply Rlt_le, Rinv_0_lt_compat. lra. }
    destruct Ht as [Hlt|Heq].
    + apply Rlt_le. rewrite <- exp_0. apply exp_increasing. exact Hlt.
    + rewrite <- Heq, exp_0. lra.
  - intros bound.
    set (b := Rabs bound).
    assert (Hb : 0 <= b) by apply Rabs_pos.
    assert (Hbb : bound <= b) by apply RRle_abs.
    exists (Mn + (1 + 2 * a * b)). eexists.
    split; [apply call_gaussian; lra|].
    rewrite Hexp.
    replace (Mn + (1 + 2 * a * b) - Mn) with (1 + 2 * a * b) by ring.
    assert (Hab : 0 <= a * b) by (apply Rmult_le_pos; lra).
    assert (Ht : b < (1 + 2 * a * b) ^ 2 / (2 * a)).
    { apply (Rmult_lt_reg_r (2 * a)); [lra|].
      unfold Rdiv. rewrite Rmult_assoc, Rinv_l by lra. nra. }
    assert (Ht0 : 0 < (1 + 2 * a * b) ^ 2 / (2 * a)) by lra.
    assert (Hne : (1 + 2 * a * b) ^ 2 / (2 * a) <> 0) by lra.
    pose proof (exp_ineq1 _ Hne). lra.
Qed.



(** X9.  Round trip on the analytic moments of a Gaussian: for mean [mu]
    and sigma [sigma], the moments are [Mn = mu] and
    [Mw = (mu^2 + sigma) / mu]; from them [recovered_gauss_sigma] gives
    back [sigma], and the closure returned by the Gaussian call is [gauss]
    with that mean, that sigma and unit amplitude. *)
Theorem gaussian_round_trip_on_analytic_moments (mu sigma : R) :
  mu <> 0 -> sigma <> 0 ->
  recovered_gauss_sigma mu ((mu ^ 2 + sigma) / mu) = sigma
  /\ exists f,
       recover_mass_dist E (Some mu) (Some ((mu ^ 2 + sigma) / mu)) None
         "gaussian" = Ret (Some f)
       /\ forall x, call f x = Ret (Some (gauss x mu sigma 1)).
Proof.
  intros Hmu Hs.
  assert (Hr : mu * ((mu ^ 2 + sigma) / mu - mu) = sigma)
    by (field; exact Hmu).
  split; [exact Hr|].
  exists (GaussianPdf mu sigma). split.
  - rewrite (recover_Mn_Mw E mu _ "gaussian" eq_refl Hmu).
    rewrite (dispatch_gaussian E "gaussian" mu _ _ _ eq_refl).
    rewrite Hr. reflexivity.
  - intros x. apply call_gaussian_is_gauss. exact Hs.
Qed.

End GaussianMore.

(** ** The noise filter *)

Lemma np_where_lt_shift (column : list R) (low_cut : R) (i : nat) :
  np_where_lt column low_cut (S i) = map S (np_where_lt column low_cut i).
Proof.
  revert i. induction column as [|y rest IH]; intros i; simpl.
  - reflexivity.
  - destruct (Rlt_dec y low_cut); simpl; rewrite IH; reflexivity.
Qed.

Lemma set_y_zero_tail (row : R * R) (rest : samples) (j : nat) :
  set_y_zero (row :: rest) (S j) = row :: set_y_zero rest j.
Proof. destruct row. reflexivity. Qed.

Lemma fold_set_y_zero_tail (row : R * R) (indices : list nat) (rest : samples) :
  fold_left set_y_zero (map S indices) (row :: rest) =
  row :: fold_left set_y_zero indices rest.
Proof.
  revert rest. induction indices as [|j indices IH]; intros rest;
    cbn [map fold_left].
  - reflexivity.
  - rewrite set_y_zero_tail. apply IH.
Qed.

Lemma filter_y_as_map (data_arr : samples) (high_cut low_cut : R) :
  filter_y data_arr high_cut low_cut = map (cut_row low_cut) data_arr.
Proof.
  unfold filter_y. induction data_arr as [|[x y] rest IH]; simpl.
  - reflexivity.
  - unfold cut_row at 1. simpl.
    destruct (Rlt_dec y low_cut).
    + simpl. rewrite np_where_lt_shift, fold_set_y_zero_tail, IH. reflexivity.
    + rewrite np_where_lt_shift, fold_set_y_zero_tail, IH. reflexivity.
Qed.

Lemma cut_row_idempotent (low_cut : R) (row : R * R) :
  cut_row low_cut (cut_row low_cut row) = cut_row low_cut row.
Proof.
  unfold cut_row. destruct (Rlt_dec (snd row) low_cut) as [Hlt|Hge]; simpl.
  - destruct (Rlt_dec 0 low_cut); reflexivity.
  - destruct (Rlt_dec (snd row) low_cut); [contradiction|reflexivity].
Qed.

Lemma filter_y_nonnegative (data_arr : samples) (high_cut low_cut : R) :
  0 <= low_cut ->
  Forall (fun row => 0 <= snd row) (filter_y data_arr high_cut low_cut).
Proof.
  intros Hl. rewrite filter_y_as_map.
  apply Forall_forall. intros row Hin. apply in_map_iff in Hin.
  destruct Hin as [r [<- _]]. unfold cut_row.
  destruct (Rlt_dec (snd r) low_cut); simpl; lra.
Qed.

(** X10.  [filter_y] replaces by [0] exactly the amplitudes below
    [low_cut] and leaves every other entry, and the order and number of the
    rows, as they were; [high_cut] has no effect. *)
Theorem filter_y_zeroes_below_cut (data_arr : samples) (high_cut low_cut : R) :
  filter_y data_arr high_cut low_cut =
    map (fun row => if Rlt_dec (snd row) low_cut then (fst row, 0) else row)
      data_arr
  /\ length (filter_y data_arr high_cut low_cut) = length data_arr.
Proof.
  rewrite filter_y_as_map. split.
  - reflexivity.
  - apply length_map.
Qed.

(** X11.  Filtering twice with the same [low_cut] changes nothing more,
    whatever the sign of the cut. *)
Theorem filter_y_idempotent (data_arr : samples) (h h' low_cut : R) :
  filter_y (filter_y data_arr h low_cut) h' low_cut =
  filter_y data_arr h low_cut.
Proof.
  rewrite !filter_y_as_map, map_map.
  apply map_ext. intros row. apply cut_row_idempotent.
Qed.

(** X12.  After the filter the masses are untouched and every amplitude
    is [0] or at least [low_cut]; so with a non-negative cut no amplitude
    is negative, even if the input had negative ones. *)
Theorem filter_y_amplitudes (data_arr : samples) (high_cut low_cut : R) :
  map fst (filter_y data_arr high_cut low_cut) = map fst data_arr
  /\ Forall (fun row => snd row = 0 \/ low_cut <= snd row)
       (filter_y data_arr high_cut low_cut)
  /\ (0 <= low_cut ->
      Forall (fun row => 0 <= snd row) (filter_y data_arr high_cut low_cut)).
Proof.
  split; [|split].
  - rewrite filter_y_as_map, map_map. apply map_ext. intros row.
    unfold cut_row. destruct (Rlt_dec (snd row) low_cut); reflexivity.
  - rewrite filter_y_as_map.
    apply Forall_forall. intros row Hin. apply in_map_iff in Hin.
    destruct Hin as [r [<- _]]. unfold cut_row.
    destruct (Rlt_dec (snd r) low_cut); simpl; [left; reflexivity|right; lra].
  - apply filter_y_nonnegative.
Qed.

(** ** The moment sums *)

Lemma M_n_sums (data : samples) :
  M_n data = np_divide (sum_xy data) (sum_y data).
Proof. reflexivity. Qed.

Lemma M_w_sums (data : samples) :
  M_w data = np_divide (sum_xxy data) (sum_xy data).
Proof. reflexivity. Qed.

Lemma np_divide_Some (a b : R) : b <> 0 -> np_divide a b = Some (a / b).
Proof.
  intros H. unfold np_divide. destruct (Req_dec_T b 0); [contradiction|reflexivity].
Qed.

Lemma np_divide_inv (a b q : R) :
  np_divide a b = Some q -> b <> 0 /\ q = a / b.
Proof.
  unfold np_divide. destruct (Req_dec_T b 0); [discriminate|].
  intros H. injection H as <-. split; [assumption|reflexivity].
Qed.

(** Cauchy-Schwarz for the three sums, by induction on the rows. *)
Lemma sums_cauchy_schwarz (data : samples) :
  Forall (fun row => 0 <= snd row) data ->
  0 <= sum_y data /\ 0 <= sum_xxy data
  /\ sum_xy data * sum_xy data <= sum_y data * sum_xxy data.
Proof.
  unfold sum_y, sum_xy, sum_xxy.
  induction 1 as [|[x y] rest Hy _ IH]; simpl.
  - lra.
  - simpl in Hy.
    set (A := np_sum (map snd rest)) in *.
    set (B := np_sum (map (fun row => fst row * snd row) rest)) in *.
    set (C := np_sum (map (fun row => fst row * fst row * snd row) rest)) in *.
    clearbody A B C.
    destruct IH as [HA [HC HB]].
    assert (Hxx : 0 <= x * x) by nra.
    assert (Hxxy : 0 <= x * x * y) by (apply Rmult_le_pos; assumption).
    assert (HQ : 0 <= A * (x * x) - 2 * B * x + C).
    { destruct HA as [HA|HA].
      - assert (0 <= A * (A * (x * x) - 2 * B * x + C)).
        { replace (A * (A * (x * x) - 2 * B * x + C))
            with ((A * x - B) * (A * x - B) + (A * C - B * B)) by ring.
          pose proof (Rle_0_sqr (A * x - B)) as Hsq. unfold Rsqr in Hsq.
          lra. }
        apply (Rmult_le_reg_l A); [exact HA | lra].
      - subst A.
        assert (HB0 : B = 0).
        { pose proof (Rle_0_sqr B) as Hsq. unfold Rsqr in Hsq.
          apply Rsqr_0_uniq. unfold Rsqr. lra. }
        subst B. lra. }
    assert (HyQ : 0 <= y * (A * (x * x) - 2 * B * x + C))
      by (apply Rmult_le_pos; assumption).
    repeat split; nra.
Qed.

(** With non-negative amplitudes and a positive [sum(x*y)], the sum of
    the amplitudes is positive and the two quotients are ordered. *)
Lemma ordered_quotients (data : samples) :
  Forall (fun row => 0 <= snd row) data ->
  0 < sum_xy data ->
  0 < sum_y data
  /\ sum_xy data / sum_y data <= sum_xxy data / sum_xy data.
Proof.
  intros Hy HB.
  destruct (sums_cauchy_schwarz data Hy) as [HA [HC HCS]].
  set (A := sum_y data) in *. set (B := sum_xy data) in *.
  set (C := sum_xxy data) in *. clearbody A B C.
  assert (HBB : 0 < B * B) by (apply Rmult_lt_0_compat; assumption).
  assert (HA0 : 0 < A).
  { destruct HA as [HA|HA]; [exact HA|]. rewrite <- HA in HCS. lra. }
  split; [exact HA0|].
  apply (Rmult_le_reg_r (A * B)); [apply Rmult_lt_0_compat; assumption|].
  replace (B / A * (A * B)) with (B * B) by (field; lra).
  replace (C / B * (A * B)) with (A * C) by (field; lra).
  exact HCS.
Qed.

Lemma sum_of_squared_deviations (data : samples) (m : R) :
  np_sum (map (fun row => (fst row - m) ^ 2 * snd row) data) =
  sum_xxy data - 2 * m * sum_xy data + m * m * sum_y data.
Proof.
  unfold sum_xxy, sum_xy, sum_y.
  induction data as [|[x y] rest IH]; cbn [map np_sum fold_right fst snd].
  - ring.
  - fold (np_sum (map (fun row => (fst row - m) ^ 2 * snd row) rest)).
    fold (np_sum (map (fun row => fst row * fst row * snd row) rest)).
    fold (np_sum (map (fun row => fst row * snd row) rest)).
    fold (np_sum (map snd rest)).
    rewrite IH. ring.
Qed.

Lemma sigma_of_quotients (data : samples) :
  sum_y data <> 0 -> sum_xy data <> 0 ->
  recovered_gauss_sigma (sum_xy data / sum_y data)
    (sum_xxy data / sum_xy data) =
  weighted_variance data (sum_xy data / sum_y data).
Proof.
  intros HA HB. unfold recovered_gauss_sigma, weighted_variance.
  rewrite sum_of_squared_deviations. field. split; assumption.
Qed.

(** X13.  For samples with non-negative amplitudes and a positive
    [sum(x*y)], both moments are defined numbers and [0 < M_n <= M_w]:
    the computed polydispersity is at least 1. *)
Theorem computed_moments_are_ordered (data : samples) :
  Forall (fun row => 0 <= snd row) data ->
  0 < sum_xy data ->
  exists mn mw,
    M_n data = Some mn /\ M_w data = Some mw /\ 0 < mn /\ mn <= mw.
Proof.
  intros Hy HB. destruct (ordered_quotients data Hy HB) as [HA Hle].
  exists (sum_xy data / sum_y data), (sum_xxy data / sum_xy data).
  rewrite M_n_sums, M_w_sums, !np_divide_Some by lra.
  repeat split; [apply Rdiv_lt_0_compat; assumption | exact Hle].
Qed.

(** X14.  Whenever both moments are defined, the sigma recovered from them
    is the weighted variance of the samples about [M_n]. *)
Theorem recovered_sigma_is_weighted_variance (data : samples) (mn mw : R) :
  M_n data = Some mn -> M_w data = Some mw ->
  recovered_gauss_sigma mn mw = weighted_variance data mn.
Proof.
  rewrite M_n_sums, M_w_sums. intros Hn Hw.
  apply np_divide_inv in Hn. destruct Hn as [HA ->].
  apply np_divide_inv in Hw. destruct Hw as [HB ->].
  apply sigma_of_quotients; assumption.
Qed.

Lemma scale_y_sums (c : R) (data : samples) :
  sum_y (scale_y c data) = c * sum_y data
  /\ sum_xy (scale_y c data) = c * sum_xy data
  /\ sum_xxy (scale_y c data) = c * sum_xxy data.
Proof.
  unfold sum_y, sum_xy, sum_xxy, scale_y.
  induction data as [|[x y] rest [IH1 [IH2 IH3]]]; simpl.
  - repeat split; ring.
  - rewrite IH1, IH2, IH3. repeat split; ring.
Qed.

Lemma np_divide_scaled (c a b : R) :
  c <> 0 -> np_divide (c * a) (c * b) = np_divide a b.
Proof.
  intros Hc. unfold np_divide.
  destruct (Req_dec_T b 0) as [->|Hb].
  - destruct (Req_dec_T (c * 0) 0) as [|Hn]; [reflexivity|].
    exfalso. apply Hn. ring.
  - destruct (Req_dec_T (c * b) 0) as [H0|_].
    + apply Rmult_integral in H0. destruct H0; contradiction.
    + f_equal. field. split; assumption.
Qed.

(** X15.  Multiplying every amplitude by the same non-zero factor (the
    [N] of [gauss], the [coeff] of [weib], a normalisation) changes neither
    moment. *)
Theorem moments_ignore_amplitude_scale (c : R) (data : samples) :
  c <> 0 ->
  M_n (scale_y c data) = M_n data /\ M_w (scale_y c data) = M_w data.
Proof.
  intros Hc. rewrite !M_n_sums, !M_w_sums.
  destruct (scale_y_sums c data) as [-> [-> ->]].
  split; apply np_divide_scaled; exact Hc.
Qed.

(** X16.  The flow of cell 18: filter the amplitudes with a non-negative
    cut, transform the masses (there with [np.log10]), compute the moments
    and recover sigma.  Whenever [sum(x*y)] is positive, both moments are
    defined, [M_n <= M_w], and the recovered sigma is the weighted variance
    of the filtered samples, hence non-negative. *)
Theorem filtered_samples_give_nonnegative_sigma
    (transform : R -> R) (data_arr : samples) (high_cut low_cut : R) :
  0 <= low_cut ->
  let rows := map (fun row => (transform (fst row), snd row))
                (filter_y data_arr high_cut low_cut) in
  0 < sum_xy rows ->
  exists mn mw,
    M_n rows = Some mn /\ M_w rows = Some mw /\ mn <= mw
    /\ recovered_gauss_sigma mn mw = weighted_variance rows mn
    /\ 0 <= recovered_gauss_sigma mn mw.
Proof.
  intros Hl rows HB.
  assert (Hy : Forall (fun row => 0 <= snd row) rows).
  { unfold rows. apply Forall_forall. intros row Hin.
    apply in_map_iff in Hin. destruct Hin as [r [<- Hr]]. simpl.
    pose proof (filter_y_nonnegative data_arr high_cut low_cut Hl) as H.
    rewrite Forall_forall in H. exact (H r Hr). }
  destruct (ordered_quotients rows Hy HB) as [HA Hle].
  assert (Hpos : 0 < sum_xy rows / sum_y rows)
    by (apply Rdiv_lt_0_compat; assumption).
  exists (sum_xy rows / sum_y rows), (sum_xxy rows / sum_xy rows).
  rewrite M_n_sums, M_w_sums, !np_divide_Some by lra.
  repeat split; try assumption.
  - apply sigma_of_quotients; lra.
  - unfold recovered_gauss_sigma. apply Rmult_le_pos; lra.
Qed.

(** ** Sigma in terms of the polydispersity, and a change of mass unit *)

Section Units.

Variable E : env.

(** X17.  Supplying [pdi] with one moment: from [Mn] and [pdi] the
    Gaussian sigma is [Mn^2 * (pdi - 1)]; from [Mw] and [pdi] (non-zero) the
    mean is [Mw / pdi] and sigma is [Mw^2 * (pdi - 1) / pdi^2].  With a
    non-zero moment sigma is positive exactly when [pdi > 1]. *)
Theorem gaussian_sigma_from_pdi (M pdi : R) :
  M <> 0 -> pdi <> 0 ->
  recover_mass_dist E (Some M) None (Some pdi) "gaussian" =
    Ret (Some (GaussianPdf M (M ^ 2 * (pdi - 1))))
  /\ recover_mass_dist E None (Some M) (Some pdi) "gaussian" =
     Ret (Some (GaussianPdf (M / pdi) (M ^ 2 * (pdi - 1) / pdi ^ 2)))
  /\ (0 < M ^ 2 * (pdi - 1) <-> 1 < pdi)
  /\ (0 < M ^ 2 * (pdi - 1) / pdi ^ 2 <-> 1 < pdi).
Proof.
  intros HM Hp.
  assert (HM2 : 0 < M ^ 2).
  { destruct (pow2_ge_0 M) as [H|H]; [exact H|].
    exfalso. apply (pow_nonzero M 2 HM). symmetry. exact H. }
  assert (Hp2 : 0 < pdi ^ 2).
  { destruct (pow2_ge_0 pdi) as [H|H]; [exact H|].
    exfalso. apply (pow_nonzero pdi 2 Hp). symmetry. exact H. }
  split; [|split; [|split]].
  - rewrite (recover_table E _ _ _ "gaussian" eq_refl).
    rewrite (dispatch_gaussian E "gaussian" M (pdi * M) _ _ eq_refl).
    do 3 f_equal. ring.
  - rewrite (recover_table E _ _ _ "gaussian" eq_refl).
    destruct (Req_dec_T pdi 0); [contradiction|].
    rewrite (dispatch_gaussian E "gaussian" (M / pdi) M _ _ eq_refl).
    do 3 f_equal. field. exact Hp.
  - split; intros H.
    + destruct (Rlt_dec 1 pdi) as [|Hn]; [assumption|].
      exfalso. assert (pdi - 1 <= 0) by lra.
      assert (M ^ 2 * (pdi - 1) <= 0); [|lra].
      rewrite <- (Rmult_0_r (M ^ 2)).
      apply Rmult_le_compat_l; lra.
    + apply Rmult_lt_0_compat; lra.
  - split; intros H.
    + destruct (Rlt_dec 1 pdi) as [|Hn]; [assumption|].
      exfalso. assert (pdi - 1 <= 0) by lra.
      assert (M ^ 2 * (pdi - 1) <= 0).
      { rewrite <- (Rmult_0_r (M ^ 2)). apply Rmult_le_compat_l; lra. }
      assert (M ^ 2 * (pdi - 1) / pdi ^ 2 <= 0); [|lra].
      unfold Rdiv. rewrite <- (Rmult_0_l (/ pdi ^ 2)).
      apply Rmult_le_compat_r; [|assumption].
      apply Rlt_le, Rinv_0_lt_compat. exact Hp2.
    + apply Rdiv_lt_0_compat; [|exact Hp2].
      apply Rmult_lt_0_compat; lra.
Qed.

(** X18.  A change of mass unit by a factor [c]: the recovered sigma
    scales with [c^2], and the Gaussian closure recovered from the scaled
    moments, applied to the scaled argument, gives the value of the
    closure recovered from the original moments. *)
Theorem gaussian_recovery_commutes_with_unit_change (c Mn Mw x : R) :
  c <> 0 -> Mn <> 0 ->
  recovered_gauss_sigma (c * Mn) (c * Mw) = c ^ 2 * recovered_gauss_sigma Mn Mw
  /\ exists f g,
       recover_mass_dist E (Some Mn) (Some Mw) None "gaussian" = Ret (Some f)
       /\ recover_mass_dist E (Some (c * Mn)) (Some (c * Mw)) None "gaussian" =
          Ret (Some g)
       /\ call g (c * x) = call f x.
Proof.
  intros Hc HMn.
  assert (HcMn : c * Mn <> 0)
    by (apply Rmult_integral_contrapositive_currified; assumption).
  split; [unfold recovered_gauss_sigma; ring|].
  exists (GaussianPdf Mn (Mn * (Mw - Mn))),
         (GaussianPdf (c * Mn) (c * Mn * (c * Mw - c * Mn))).
  split; [|split].
  - rewrite (recover_Mn_Mw E Mn Mw "gaussian" eq_refl HMn).
    apply (dispatch_gaussian E "gaussian" Mn Mw _ _ eq_refl).
  - rewrite (recover_Mn_Mw E _ _ "gaussian" eq_refl HcMn).
    apply (dispatch_gaussian E "gaussian" _ _ _ _ eq_refl).
  - assert (Hs : c * Mn * (c * Mw - c * Mn) = c * c * (Mn * (Mw - Mn)))
      by ring.
    rewrite Hs. set (s := Mn * (Mw - Mn)). unfold call.
    destruct (Req_dec_T (2 * s) 0) as [H0|H0].
    + destruct (Req_dec_T (2 * (c * c * s)) 0) as [|Hn]; [reflexivity|].
      exfalso. apply Hn. replace (2 * (c * c * s)) with (c * c * (2 * s)) by ring.
      rewrite H0. ring.
    + assert (Hs0 : s <> 0) by lra.
      destruct (Req_dec_T (2 * (c * c * s)) 0) as [H1|H1].
      * exfalso.
        replace (2 * (c * c * s)) with (c * c * (2 * s)) in H1 by ring.
        apply Rmult_integral in H1. destruct H1 as [H1|H1]; [|contradiction].
        apply Rmult_integral in H1. destruct H1; contradiction.
      * do 3 f_equal. field. split; assumption.
Qed.

End Units.

(** ** The Weibull relations and closure *)

Lemma np_power_exponent_zero (x : R) : np_power x 0 = Some 1.
Proof.
  unfold np_power. destruct (Rlt_dec 0 x) as [Hx|Hx].
  - rewrite (Rpower_O x Hx). reflexivity.
  - destruct (Req_dec_T x 0).
    + destruct (Rlt_dec 0 0); [lra|].
      destruct (Req_dec_T 0 0); [reflexivity|contradiction].
    + rewrite (Int_part_IZR 0).
      destruct (Req_dec_T 0 0); [reflexivity|contradiction].
Qed.

Lemma np_power_exponent_one (x : R) : np_power x 1 = Some x.
Proof.
  unfold np_power. destruct (Rlt_dec 0 x) as [Hx|Hx].
  - rewrite (Rpower_1 x Hx). reflexivity.
  - destruct (Req_dec_T x 0) as [->|].
    + destruct (Rlt_dec 0 1); [reflexivity|lra].
    + rewrite (Int_part_IZR 1).
      destruct (Req_dec_T 1 1); [|contradiction].
      rewrite powerRZ_1. reflexivity.
Qed.

(** X19.  Under a change of mass unit by a non-zero factor [c] the shape
    equation [f1] is unchanged (it sees the moments only through their
    ratio), the scale [f2] is multiplied by [c], and the Weibull closure
    with the scaled scale, applied to the scaled argument, gives the
    original value divided by [c] ([nan] stays [nan]). *)
Theorem weibull_relations_under_unit_change (E : env) (c Mn Mw k lam x : R) :
  c <> 0 -> Mn <> 0 ->
  f1 E k (c * Mn) (c * Mw) = f1 E k Mn Mw
  /\ f2 E (c * Mn) k = c * f2 E Mn k
  /\ call (WeibullPdf k (c * lam)) (c * x) =
     match call (WeibullPdf k lam) x with
     | Ret (Some v) => Ret (Some (v / c))
     | other => other
     end.
Proof.
  intros Hc HMn. split; [|split].
  - unfold f1. f_equal. field. split; assumption.
  - unfold f2, Rdiv. ring.
  - unfold call. destruct (Req_dec_T lam 0) as [->|Hl].
    + destruct (Req_dec_T (c * 0) 0) as [|Hn]; [reflexivity|].
      exfalso. apply Hn. ring.
    + destruct (Req_dec_T (c * lam) 0) as [H0|_].
      { apply Rmult_integral in H0. destruct H0; contradiction. }
      replace (c * x / (c * lam)) with (x / lam) by (field; split; assumption).
      destruct (np_power (x / lam) (k - 1)) as [p|]; [|reflexivity].
      destruct (np_power (x / lam) k) as [q|]; [|reflexivity].
      do 2 f_equal. field. split; assumption.
Qed.

(** X20.  With a positive shape and a positive scale the Weibull closure
    is defined and positive at every positive argument. *)
Theorem weibull_closure_positive_on_positives (k lam x : R) :
  0 < k -> 0 < lam -> 0 < x ->
  exists v, call (WeibullPdf k lam) x = Ret (Some v) /\ 0 < v.
Proof.
  intros Hk Hl Hx. eexists. split.
  - apply call_weibull_positive_argument; assumption.
  - apply Rmult_lt_0_compat; [apply Rmult_lt_0_compat|].
    + apply Rdiv_lt_0_compat; assumption.
    + unfold Rpower. apply exp_pos.
    + apply exp_pos.
Qed.

(** X21.  With shape [1], [weib] is the exponential curve
    [coeff / scale * exp (- x / scale)] at every argument, negative ones
    included, for any non-zero scale. *)
Theorem weib_with_unit_shape_is_exponential (x scale coeff : R) :
  scale <> 0 ->
  weib x 1 scale coeff = Some (coeff / scale * exp (- x / scale)).
Proof.
  intros Hs. unfold weib. destruct (Req_dec_T scale 0); [contradiction|].
  replace (1 - 1) with 0 by ring.
  rewrite np_power_exponent_zero, np_power_exponent_one.
  f_equal. replace (- (x / scale)) with (- x / scale) by (field; exact Hs).
  field. exact Hs.
Qed.

(** ** The Gamma function of the concrete state at 1 and 2 *)

Lemma fold_right_Rmult_init (a : R) (l : list R) :
  fold_right Rmult a l = fold_right Rmult 1 l * a.
Proof.
  induction l as [|b l IH]; simpl; [ring | rewrite IH; ring].
Qed.

Lemma rising_S (x : R) (n : nat) :
  rising x (S n) = rising x n * (x + INR n).
Proof.
  unfold rising.
  rewrite seq_S, map_app, fold_right_app. cbn [map fold_right Nat.add].
  rewrite fold_right_Rmult_init. ring.
Qed.

Lemma euler_product_rising (x : R) (n : nat) :
  euler_product x n = INR (fact n) * Rpower (INR n) x / rising x (S n).
Proof. reflexivity. Qed.

Lemma rising_one (n : nat) : rising 1 n = INR (fact n).
Proof.
  induction n as [|n IH].
  - simpl. reflexivity.
  - rewrite rising_S, IH, fact_simpl, mult_INR, S_INR. ring.
Qed.

Lemma rising_two (n : nat) : rising 2 n = INR (fact (S n)).
Proof.
  induction n as [|n IH].
  - simpl. reflexivity.
  - rewrite rising_S, IH, (fact_simpl (S n)), mult_INR, !S_INR. ring.
Qed.

Lemma euler_product_one (n : nat) :
  (0 < n)%nat -> euler_product 1 n = INR n / INR (S n).
Proof.
  intros Hn. rewrite euler_product_rising.
  rewrite rising_one, fact_simpl, mult_INR.
  rewrite Rpower_1 by (apply lt_0_INR; exact Hn).
  field. repeat split;
    first [apply INR_fact_neq_0 | apply not_0_INR; discriminate].
Qed.

Lemma euler_product_two (n : nat) :
  (0 < n)%nat ->
  euler_product 2 n = INR n * INR n / (INR (S n) * INR (S (S n))).
Proof.
  intros Hn. rewrite euler_product_rising.
  assert (Hp : Rpower (INR n) 2 = INR n * INR n).
  { replace 2 with (INR 2) by (simpl; ring).
    rewrite Rpower_pow by (apply lt_0_INR; exact Hn). ring. }
  rewrite Hp, rising_two, (fact_simpl (S n)), (fact_simpl n), !mult_INR.
  field. repeat split;
    first [apply INR_fact_neq_0 | apply not_0_INR; discriminate].
Qed.

Lemma euler_product_one_converges : Un_cv (euler_product 1) 1.
Proof.
  intros eps Heps.
  destruct (archimed_cor1 (eps / 3)) as [N [HN HN0]]; [lra|].
  exists N. intros n Hn.
  assert (Hn0 : (0 < n)%nat) by (apply Nat.lt_le_trans with N; assumption).
  rewrite (euler_product_one n Hn0), S_INR.
  assert (HmN : INR N <= INR n) by (apply le_INR; exact Hn).
  assert (HN1 : 0 < INR N) by (apply lt_0_INR; exact HN0).
  assert (Hm : 3 < eps * INR n).
  { assert (H3 : 1 < eps / 3 * INR N).
    { rewrite <- (Rinv_l (INR N)) by lra.
      apply Rmult_lt_compat_r; assumption. }
    assert (eps / 3 * INR N <= eps / 3 * INR n)
      by (apply Rmult_le_compat_l; lra).
    lra. }
  set (m := INR n) in *. clearbody m.
  unfold Rdist.
  replace (m / (m + 1) - 1) with (- (1 / (m + 1))) by (field; lra).
  rewrite Rabs_Ropp, Rabs_right.
  - apply (Rmult_lt_reg_r (m + 1)); [lra|].
    unfold Rdiv. rewrite Rmult_assoc, Rinv_l by lra. lra.
  - apply Rle_ge, Rlt_le, Rdiv_lt_0_compat; lra.
Qed.

Lemma euler_product_two_converges : Un_cv (euler_product 2) 1.
Proof.
  intros eps Heps.
  destruct (archimed_cor1 (eps / 3)) as [N [HN HN0]]; [lra|].
  exists N. intros n Hn.
  assert (Hn0 : (0 < n)%nat) by (apply Nat.lt_le_trans with N; assumption).
  rewrite (euler_product_two n Hn0), !S_INR.
  assert (HmN : INR N <= INR n) by (apply le_INR; exact Hn).
  assert (HN1 : 0 < INR N) by (apply lt_0_INR; exact HN0).
  assert (Hm : 3 < eps * INR n).
  { assert (H3 : 1 < eps / 3 * INR N).
    { rewrite <- (Rinv_l (INR N)) by lra.
      apply Rmult_lt_compat_r; assumption. }
    assert (eps / 3 * INR N <= eps / 3 * INR n)
      by (apply Rmult_le_compat_l; lra).
    lra. }
  set (m := INR n) in *. clearbody m.
  assert (Hm0 : 0 < m) by lra.
  unfold Rdist.
  replace (m * m / ((m + 1) * (m + 1 + 1)) - 1)
    with (- ((3 * m + 2) / ((m + 1) * (m + 1 + 1)))) by (field; lra).
  assert (Hden : 0 < (m + 1) * (m + 1 + 1))
    by (apply Rmult_lt_0_compat; lra).
  rewrite Rabs_Ropp, Rabs_right.
  - apply (Rmult_lt_reg_r ((m + 1) * (m + 1 + 1))); [exact Hden|].
    unfold Rdiv. rewrite Rmult_assoc, Rinv_l by lra.
    assert (H1 : 3 * m < eps * m * m)
      by (apply Rmult_lt_compat_r; assumption).
    replace (eps * ((m + 1) * (m + 1 + 1)))
      with (eps * m * m + 3 * (eps * m) + 2 * eps) by ring.
    lra.
  - apply Rle_ge, Rlt_le, Rdiv_lt_0_compat; lra.
Qed.

Lemma Gamma_limit_unique (x l : R) :
  Un_cv (euler_product x) l -> Gamma_limit x = l.
Proof.
  intros H. unfold Gamma_limit.
  apply (UL_sequence (euler_product x)); [|exact H].
  apply epsilon_spec. exists l. exact H.
Qed.

Lemma Gamma_limit_one : Gamma_limit 1 = 1.
Proof. apply Gamma_limit_unique, euler_product_one_converges. Qed.

Lemma Gamma_limit_two : Gamma_limit 2 = 1.
Proof. apply Gamma_limit_unique, euler_product_two_converges. Qed.

(** X22.  With [gamma 1 = 1] and [gamma 2 = 1], as for the Gamma function,
    the shape equation at [k = 1] reads [2 - Mw / Mn], so [k = 1] solves it
    exactly when [Mw = 2 * Mn], and the scale for [k = 1] is [Mn] itself:
    the exponential distribution. *)
Theorem shape_equation_at_unit_shape (E : env) (Mn Mw : R) :
  gamma E 1 = 1 -> gamma E 2 = 1 -> Mn <> 0 ->
  f1 E 1 Mn Mw = 2 - Mw / Mn
  /\ (f1 E 1 Mn Mw = 0 <-> Mw = 2 * Mn)
  /\ f2 E Mn 1 = Mn.
Proof.
  intros H1 H2 HMn.
  assert (Hf : f1 E 1 Mn Mw = 2 - Mw / Mn).
  { unfold f1. replace (2 / 1) with 2 by field.
    replace (1 / 1) with 1 by field. rewrite H1, H2. field. exact HMn. }
  split; [exact Hf|split].
  - rewrite Hf. split; intros H.
    + assert (Hq : Mw / Mn = 2) by lra.
      apply (Rmult_eq_compat_r Mn) in Hq.
      unfold Rdiv in Hq. rewrite Rmult_assoc, Rinv_l in Hq by exact HMn.
      lra.
    + rewrite H. field. exact HMn.
  - unfold f2. replace (1 / 1) with 1 by field. rewrite H1. field.
Qed.

(** * Instances of the further properties *)

Lemma any_two_of_a_consistent_triple_witness :
  (50 <> 0 /\ 60 <> 0 /\ recognised "weibull" = true)
  /\ recover_mass_dist example_env (Some 50) None (Some (60 / 50)) "weibull" =
     recover_mass_dist example_env (Some 50) (Some 60) None "weibull".
Proof.
  assert (H50 : 50 <> 0) by lra.
  assert (H60 : 60 <> 0) by lra.
  split; [repeat split; assumption|].
  exact (proj1 (any_two_of_a_consistent_triple example_env 50 60 "weibull"
                  H50 H60 eq_refl)).
Defined.

Lemma gaussian_closure_bounded_by_its_peak_witness :
  (0 < 50 /\ 50 < 60)
  /\ exists f,
       recover_mass_dist example_env (Some 50) (Some 60) None "Gaussian" =
       Ret (Some f)
       /\ forall x, exists v,
            call f x = Ret (Some v) /\ 0 < v <= 1 /\ (v = 1 <-> x = 50).
Proof.
  assert (H1 : 0 < 50) by lra.
  assert (H2 : 50 < 60) by lra.
  split; [split; assumption|].
  exact (gaussian_closure_bounded_by_its_peak example_env 50 60 "Gaussian"
           H1 H2 eq_refl).
Defined.

Lemma gaussian_closure_for_inverted_moments_witness :
  (0 < 50 /\ 40 < 50)
  /\ exists f,
       recover_mass_dist example_env (Some 50) (Some 40) None "gaussian" =
       Ret (Some f)
       /\ (forall x, exists v, call f x = Ret (Some v) /\ 1 <= v)
       /\ forall bound, exists x v, call f x = Ret (Some v) /\ bound < v.
Proof.
  assert (H1 : 0 < 50) by lra.
  assert (H2 : 40 < 50) by lra.
  split; [split; assumption|].
  exact (gaussian_closure_for_inverted_moments example_env 50 40 "gaussian"
           H1 H2 eq_refl).
Defined.


Lemma gaussian_round_trip_on_analytic_moments_witness :
  (50 <> 0 /\ 301 <> 0)
  /\ recovered_gauss_sigma 50 ((50 ^ 2 + 301) / 50) = 301.
Proof.
  assert (H1 : 50 <> 0) by lra.
  assert (H2 : 301 <> 0) by lra.
  split; [split; assumption|].
  exact (proj1 (gaussian_round_trip_on_analytic_moments example_env 50 301
                  H1 H2)).
Defined.

Lemma gaussian_sigma_from_pdi_witness :
  (50 <> 0 /\ 6 / 5 <> 0)
  /\ recover_mass_dist example_env (Some 50) None (Some (6 / 5)) "gaussian" =
     Ret (Some (GaussianPdf 50 (50 ^ 2 * (6 / 5 - 1)))).
Proof.
  assert (H1 : 50 <> 0) by lra.
  assert (H2 : 6 / 5 <> 0) by lra.
  split; [split; assumption|].
  exact (proj1 (gaussian_sigma_from_pdi example_env 50 (6 / 5) H1 H2)).
Defined.

Lemma gaussian_recovery_commutes_with_unit_change_witness :
  (1000 <> 0 /\ 50 <> 0)
  /\ recovered_gauss_sigma (1000 * 50) (1000 * 60) =
     1000 ^ 2 * recovered_gauss_sigma 50 60.
Proof.
  assert (H1 : 1000 <> 0) by lra.
  assert (H2 : 50 <> 0) by lra.
  split; [split; assumption|].
  exact (proj1 (gaussian_recovery_commutes_with_unit_change example_env
                  1000 50 60 55 H1 H2)).
Defined.

Lemma weibull_relations_under_unit_change_witness :
  (1000 <> 0 /\ 50 <> 0)
  /\ f2 example_env (1000 * 50) 2 = 1000 * f2 example_env 50 2.
Proof.
  assert (H1 : 1000 <> 0) by lra.
  assert (H2 : 50 <> 0) by lra.
  split; [split; assumption|].
  exact (proj1 (proj2 (weibull_relations_under_unit_change example_env
                         1000 50 60 2 40 10 H1 H2))).
Defined.

Lemma weibull_closure_positive_on_positives_witness :
  (0 < 2 /\ 0 < 40 /\ 0 < 10)
  /\ exists v, call (WeibullPdf 2 40) 10 = Ret (Some v) /\ 0 < v.
Proof.
  assert (H1 : 0 < 2) by lra.
  assert (H2 : 0 < 40) by lra.
  assert (H3 : 0 < 10) by lra.
  split; [repeat split; assumption|].
  exact (weibull_closure_positive_on_positives 2 40 10 H1 H2 H3).
Defined.

Lemma weib_with_unit_shape_is_exponential_witness :
  40 <> 0
  /\ weib (-1) 1 40 2000 = Some (2000 / 40 * exp (- -1 / 40)).
Proof.
  assert (H1 : 40 <> 0) by lra.
  split; [assumption|].
  exact (weib_with_unit_shape_is_exponential (-1) 40 2000 H1).
Defined.

Lemma shape_equation_at_unit_shape_witness :
  (gamma example_env 1 = 1 /\ gamma example_env 2 = 1 /\ 40 <> 0)
  /\ f1 example_env 1 40 80 = 2 - 80 / 40
  /\ (f1 example_env 1 40 80 = 0 <-> 80 = 2 * 40)
  /\ f2 example_env 40 1 = 40.
Proof.
  assert (H1 : 40 <> 0) by lra.
  split; [repeat split; [exact Gamma_limit_one | exact Gamma_limit_two
                        | exact H1]|].
  exact (shape_equation_at_unit_shape example_env 40 80
           Gamma_limit_one Gamma_limit_two H1).
Defined.

Lemma two_samples_nonnegative :
  Forall (fun row : R * R => 0 <= snd row) [(1, 1); (3, 1)].
Proof. repeat constructor; simpl; lra. Defined.

Lemma two_samples_sum_xy : 0 < sum_xy [(1, 1); (3, 1)].
Proof. unfold sum_xy, np_sum. simpl. lra. Defined.

Lemma two_samples_M_n : M_n [(1, 1); (3, 1)] = Some 2.
Proof.
  unfold M_n, np_divide, np_sum. simpl.
  destruct (Req_dec_T (1 + (1 + 0)) 0); [lra|]. f_equal. field.
Defined.

Lemma two_samples_M_w : M_w [(1, 1); (3, 1)] = Some (5 / 2).
Proof.
  unfold M_w, np_divide, np_sum. simpl.
  destruct (Req_dec_T (1 * 1 + (3 * 1 + 0)) 0); [lra|]. f_equal. field.
Defined.

Lemma computed_moments_are_ordered_witness :
  (Forall (fun row : R * R => 0 <= snd row) [(1, 1); (3, 1)]
   /\ 0 < sum_xy [(1, 1); (3, 1)])
  /\ exists mn mw,
       M_n [(1, 1); (3, 1)] = Some mn /\ M_w [(1, 1); (3, 1)] = Some mw
       /\ 0 < mn /\ mn <= mw.
Proof.
  split; [split; [exact two_samples_nonnegative | exact two_samples_sum_xy]|].
  exact (computed_moments_are_ordered [(1, 1); (3, 1)]
           two_samples_nonnegative two_samples_sum_xy).
Defined.

Lemma recovered_sigma_is_weighted_variance_witness :
  (M_n [(1, 1); (3, 1)] = Some 2 /\ M_w [(1, 1); (3, 1)] = Some (5 / 2))
  /\ recovered_gauss_sigma 2 (5 / 2) = weighted_variance [(1, 1); (3, 1)] 2.
Proof.
  split; [split; [exact two_samples_M_n | exact two_samples_M_w]|].
  exact (recovered_sigma_is_weighted_variance [(1, 1); (3, 1)] 2 (5 / 2)
           two_samples_M_n two_samples_M_w).
Defined.

Lemma moments_ignore_amplitude_scale_witness :
  2000 <> 0
  /\ M_n (scale_y 2000 [(1, 1); (3, 1)]) = M_n [(1, 1); (3, 1)]
  /\ M_w (scale_y 2000 [(1, 1); (3, 1)]) = M_w [(1, 1); (3, 1)].
Proof.
  assert (H : 2000 <> 0) by lra.
  split; [exact H|].
  exact (moments_ignore_amplitude_scale 2000 [(1, 1); (3, 1)] H).
Defined.

Lemma filtered_two_samples_sum_xy :
  0 < sum_xy (map (fun row : R * R => (fst row, snd row))
                (filter_y [(1, 1); (3, 1 / 1000)] 1000000 (5 / 1000))).
Proof.
  rewrite filter_y_as_map. unfold cut_row. simpl.
  destruct (Rlt_dec 1 (5 / 1000)); [lra|].
  destruct (Rlt_dec (1 / 1000) (5 / 1000)); [|lra].
  unfold sum_xy, np_sum. simpl. lra.
Defined.

Lemma filtered_samples_give_nonnegative_sigma_witness :
  (0 <= 5 / 1000
   /\ 0 < sum_xy (map (fun row : R * R => (fst row, snd row))
                    (filter_y [(1, 1); (3, 1 / 1000)] 1000000 (5 / 1000))))
  /\ exists mn mw,
       M_n (map (fun row : R * R => (fst row, snd row))
              (filter_y [(1, 1); (3, 1 / 1000)] 1000000 (5 / 1000))) = Some mn
       /\ M_w (map (fun row : R * R => (fst row, snd row))
                 (filter_y [(1, 1); (3, 1 / 1000)] 1000000 (5 / 1000))) =
          Some mw
       /\ mn <= mw
       /\ 0 <= recovered_gauss_sigma mn mw.
Proof.
  assert (Hl : 0 <= 5 / 1000) by lra.
  split; [split; [exact Hl | exact filtered_two_samples_sum_xy]|].
  destruct (filtered_samples_give_nonnegative_sigma (fun x => x)
              [(1, 1); (3, 1 / 1000)] 1000000 (5 / 1000) Hl
              filtered_two_samples_sum_xy)
    as [mn [mw [Hn [Hw [Hle [_ Hs]]]]]].
  exists mn, mw. repeat split; assumption.
Defined.
